(** * Verification of the dialog-script convertor (dialog.py)

    A shallow embedding of [Intent], [StoryNodePointer], [StoryNode] and
    [StoryTree.export], followed by the properties of the graph-to-tree
    reduction and of the intent extraction.

    Python objects that are shared and mutated ([StoryNode]s held in the
    [story_nodes] dictionary) live in an explicit store indexed by their
    dictionary key; [StoryNodePointer]s are created, linked once and never
    touched again, so they are plain values. *)

From stdpp Require Import gmap strings list fin_maps.
From Stdlib Require Import Ascii.

Local Open Scope string_scope.
Local Open Scope list_scope.
Local Open Scope nat_scope.
Local Set Warnings "-register-all".

(** ** Python runtime: exceptions, results, ordered dictionaries *)

Inductive exn :=
| KeyError (key : string)
| IndexError
| AttributeError.

(** A call either returns, raises, or exhausts the recursion budget of the
    model ([OutOfFuel] is an artefact of the embedding, see [tree_returns]). *)
Inductive result (A : Type) :=
| Ok (a : A)
| Raise (e : exn)
| OutOfFuel.
Arguments Ok {A} a.
Arguments Raise {A} e.
Arguments OutOfFuel {A}.

#[global] Instance result_ret : MRet result := λ A a, Ok a.
#[global] Instance result_bind : MBind result := λ A B f m,
  match m with
  | Ok a => f a
  | Raise e => Raise e
  | OutOfFuel => OutOfFuel
  end.

(** A [dict] with string keys and values keeps insertion order; assigning
    to a key that is present replaces the value where the key stands. *)
Abbreviation dict := (list (string * string)).

Fixpoint dict_set (d : dict) (k v : string) : dict :=
  match d with
  | [] => [(k, v)]
  | (k', v') :: d' =>
      if decide (k' = k) then (k, v) :: d' else (k', v') :: dict_set d' k v
  end.

Definition dict_keys (d : dict) : list string := d.*1.

(** Special characters that cannot be written inside a string literal. *)
Definition nl : string := String (ascii_of_nat 10) EmptyString.
Definition dquote : string := String (ascii_of_nat 34) EmptyString.

(** [s.replace(old, new)] for one-character [old] and [new]. *)
Fixpoint replace_char (old new : ascii) (s : string) : string :=
  match s with
  | EmptyString => EmptyString
  | String c s' =>
      String (if decide (c = old) then new else c) (replace_char old new s')
  end.

(** ** Object references

    [previous_sibling] holds either a [StoryNode] (the object
    [story_nodes[key]]) or a [StoryNodePointer].  A pointer object is
    described by its four constructor fields. *)
Inductive ref :=
| node_ref (key : string)
| pointer_ref (source target : string) (conditions : string)
              (previous_sibling : option ref).

(** The record produced by [encode] for either class.  The constant
    fields [type="standard"] and [context={}] are left out; [output] is
    the text of [output.generic[0].values[0]], [next_step] the
    [dialog_node] of the [jump_to] directive. *)
Record json_node := mk_json_node {
  title : string;
  output : option string;
  next_step : option string;
  dialog_node : string;
  parent : option string;
  previous_sibling : option string;
  conditions : option string
}.

(** ** class Intent *)
Module Intent.
Record t := mk { id : string; examples : list string }.

(** [dict(intent=self.id, examples=[dict(text=e) for e in self.examples])] *)
Record json := mk_json { intent : string; examples_text : list string }.

Definition encode (self : t) : json :=
  {| intent := id self; examples_text := examples self |}.
End Intent.

(** ** class StoryNode: fields *)
Module StoryNode.
Record t := mk {
  id : string;
  text : string;
  children : dict;
  parent : option string;
  previous_sibling : option ref;
  conditions : option string
}.

(** [__init__]: the dict comprehension over [zip(responses, children)]. *)
Definition init (id text : string) (responses children : list string) : t :=
  {| id := id; text := text;
     children := foldl (λ d rc, dict_set d rc.1 rc.2) [] (zip responses children);
     parent := None; previous_sibling := None; conditions := None |}.

Definition set_text (v : string) (n : t) : t :=
  mk (id n) v (children n) (parent n) (previous_sibling n) (conditions n).
Definition set_children (v : dict) (n : t) : t :=
  mk (id n) (text n) v (parent n) (previous_sibling n) (conditions n).
Definition set_parent (v : option string) (n : t) : t :=
  mk (id n) (text n) (children n) v (previous_sibling n) (conditions n).
Definition set_previous_sibling (v : option ref) (n : t) : t :=
  mk (id n) (text n) (children n) (parent n) v (conditions n).
Definition set_conditions (v : option string) (n : t) : t :=
  mk (id n) (text n) (children n) (parent n) (previous_sibling n) v.
End StoryNode.

(** The dictionary [story_nodes]: key ↦ the (mutable) [StoryNode]. *)
Abbreviation store := (gmap string StoryNode.t).

(** ** class StoryNodePointer *)
Module StoryNodePointer.
(** [__init__(source, target, condition, previous_sibling)]; [source] and
    [target] are [StoryNode]s, named here by their keys. *)
Definition init (source target condition : string)
    (previous_sibling : option ref) : ref :=
  pointer_ref source target condition previous_sibling.
End StoryNodePointer.

(** [o.id] for either kind of object; a pointer's id is computed once in
    [__init__] as [source.id + "-" + target.id]. *)
Definition ref_id (o : ref) : string :=
  match o with
  | node_ref key => key
  | pointer_ref source target _ _ => source +:+ "-" +:+ target
  end.

(** Assignments [child.previous_sibling = v] and [child.conditions = v]
    on a pointer object. *)
Definition pointer_set_previous_sibling (v : option ref) (o : ref) : ref :=
  match o with
  | pointer_ref s t c _ => pointer_ref s t c v
  | node_ref k => node_ref k
  end.
Definition pointer_set_conditions (v : string) (o : ref) : ref :=
  match o with
  | pointer_ref s t _ p => pointer_ref s t v p
  | node_ref k => node_ref k
  end.

(** ** StoryNode.tree *)

(** The three assignments made to a child that has no parent yet:
    [child.parent = story_nodes[self.id]], then
    [child.previous_sibling = previous_sibling] when that is not [None],
    then [child.conditions = response]. *)
Definition place_child (self : string) (previous_sibling : option ref)
    (response : string) (child : StoryNode.t) : StoryNode.t :=
  let child := StoryNode.set_parent (Some self) child in
  let child :=
    match previous_sibling with
    | Some _ => StoryNode.set_previous_sibling previous_sibling child
    | None => child
    end in
  StoryNode.set_conditions (Some response) child.

(** The pointer built for a child that has a parent already, after the
    same two assignments. *)
Definition make_pointer (self target : string) (previous_sibling : option ref)
    (response : string) : ref :=
  let child := StoryNodePointer.init self target response previous_sibling in
  let child :=
    match previous_sibling with
    | Some _ => pointer_set_previous_sibling previous_sibling child
    | None => child
    end in
  pointer_set_conditions response child.

Section tree_body.
(** The recursive call [child.tree(story_nodes)]. *)
Variable rec : string → store → result (list ref * store).

(** The [for response in self.children.keys()] loop, from the state
    reached after some iterations: [items] are the choices still to
    process, [previous_sibling] and [nodes] the loop variables. *)
Fixpoint tree_loop (self : string) (items : dict)
    (previous_sibling : option ref) (nodes : list ref)
    (story_nodes : store) : result (list ref * store) :=
  match items with
  | [] => Ok (nodes, story_nodes)
  | (response, target) :: items' =>
      match story_nodes !! target with
      | None => Raise (KeyError target)
      | Some child =>
          match StoryNode.parent child with
          | None =>
              match story_nodes !! self with
              | None => Raise (KeyError self)
              | Some _ =>
                  let child := place_child self previous_sibling response child in
                  match rec target (<[target := child]> story_nodes) with
                  | Ok (sub, story_nodes') =>
                      tree_loop self items' (Some (node_ref target))
                                (nodes ++ sub) story_nodes'
                  | Raise e => Raise e
                  | OutOfFuel => OutOfFuel
                  end
              end
          | Some _ =>
              let child := make_pointer self target previous_sibling response in
              tree_loop self items' (Some child) (nodes ++ [child]) story_nodes
          end
      end
  end.
End tree_body.

(** [self.tree(story_nodes)], where [self] is the object [story_nodes[self]].
    [fuel] bounds the depth of the recursion. *)
Fixpoint tree (fuel : nat) (self : string) (story_nodes : store)
    : result (list ref * store) :=
  match fuel with
  | 0 => OutOfFuel
  | S fuel' =>
      match story_nodes !! self with
      | None => Raise (KeyError self)
      | Some this =>
          tree_loop (tree fuel') self (StoryNode.children this) None
                    [node_ref self] story_nodes
      end
  end.

(** ** StoryNode.encode and StoryNodePointer.encode

    [self.parent.id] and [self.previous_sibling.id] read the id of the
    object referred to; a [StoryNode] in [story_nodes] has its key as id
    (see [store_of_nodes]). *)
Module Encode.
Definition story_node (self : StoryNode.t) : json_node :=
  {| title := StoryNode.id self;
     output := Some ("<speak>" +:+ StoryNode.text self +:+ "</speak>");
     next_step := None;
     dialog_node := StoryNode.id self;
     parent := StoryNode.parent self;
     previous_sibling := ref_id <$> StoryNode.previous_sibling self;
     conditions := StoryNode.conditions self |}.

Definition story_node_pointer (source target conditions : string)
    (previous_sibling : option ref) : json_node :=
  {| title := target;
     output := None;
     next_step := Some target;
     dialog_node := ref_id (pointer_ref source target conditions previous_sibling);
     parent := Some source;
     previous_sibling := ref_id <$> previous_sibling;
     conditions := Some conditions |}.

(** [node.encode()] for an element of the list returned by [tree]. *)
Definition encode (story_nodes : store) (o : ref) : result json_node :=
  match o with
  | node_ref key =>
      match story_nodes !! key with
      | Some self => Ok (story_node self)
      | None => Raise (KeyError key)
      end
  | pointer_ref s t c p => Ok (story_node_pointer s t c p)
  end.
End Encode.

(** ** class StoryTree *)
Definition reserved : list string := ["conversation_start"; "anything_else"].

(** [r.replace(" ", "_").replace("'", "_")] *)
Definition safe_response (r : string) : string :=
  replace_char "'" "_" (replace_char " " "_" r).

(** The document handed to [json.dumps]; the remaining entries of
    [encoded] are constants. *)
Record document := mk_document {
  intents : list Intent.json;
  dialog_nodes : list json_node
}.

Fixpoint mapM {A B} (f : A → result B) (l : list A) : result (list B) :=
  match l with
  | [] => Ok []
  | a :: l' => b ← f a; bs ← mapM f l'; Ok (b :: bs)
  end.

Module StoryTree.
(** [voices] is only assigned by [set_voice_map] and [load_voice_file];
    [None] stands for the attribute not being set. *)
Record t := mk { nodes : list StoryNode.t; voices : option dict }.

Section export.
(** [re.sub(pattern, repl, text)] *)
Variable re_sub : string → string → string → string.
(** [list(set(responses))]: the order is the interpreter's. *)
Variable list_set : list string → list string.

(** First loop of [export]: the text of a node gets its choices
    appended. *)
Definition annotate (node : StoryNode.t) : StoryNode.t :=
  let text :=
    if decide (0 < List.length (StoryNode.children node))
    then StoryNode.text node +:+ nl +:+ "Do you: " +:+ nl
    else StoryNode.text node in
  StoryNode.set_text
    (foldl (λ text response, text +:+ response +:+ "?" +:+ nl) text
           (dict_keys (StoryNode.children node)))
    node.

Definition collect_responses (nodes : list StoryNode.t) : list string :=
  mjoin ((λ node, dict_keys (StoryNode.children node)) <$> nodes).

(** [for i in range(len(responses))]: builds [intents] and
    [response_to_intent]. *)
Fixpoint intents_loop (responses : list string)
    (intents : list Intent.json) (response_to_intent : gmap string string)
    : list Intent.json * gmap string string :=
  match responses with
  | [] => (intents, response_to_intent)
  | r :: responses' =>
      if decide (r ∈ reserved)
      then intents_loop responses' intents response_to_intent
      else
        let safe := safe_response r in
        let intent := Intent.mk safe [r] in
        intents_loop responses' (intents ++ [Intent.encode intent])
                     (<[r := "#" +:+ safe]> response_to_intent)
  end.

(** [for response, child in node.children.items()] *)
Fixpoint rewrite_loop (response_to_intent : gmap string string)
    (items : dict) (new_responses : dict) : result dict :=
  match items with
  | [] => Ok new_responses
  | (response, child) :: items' =>
      if decide (response ∈ reserved)
      then rewrite_loop response_to_intent items'
                        (dict_set new_responses response child)
      else
        match response_to_intent !! response with
        | Some i =>
            rewrite_loop response_to_intent items'
                         (dict_set new_responses i child)
        | None => Raise (KeyError response)
        end
  end.

(** [for name, voice_name in self.voices.items()]: the pattern is the
    escaped [name] in brackets followed by a quoted group, the
    replacement wraps group 1 in a [voice] element. *)
Definition voice_loop (voices : dict) (text : string) : string :=
  foldl (λ text nv,
           re_sub ("\[" +:+ nv.1 +:+ "\](" +:+ dquote +:+ ".*" +:+ dquote +:+ ")")
                  ("<voice name=" +:+ dquote +:+ nv.2 +:+ dquote +:+ ">\1</voice>")
                  text)
        text voices.

(** Body of the second [for node in self.nodes] loop. *)
Definition rewrite_node (self_voices : option dict)
    (response_to_intent : gmap string string) (node : StoryNode.t)
    : result StoryNode.t :=
  new_responses ← rewrite_loop response_to_intent (StoryNode.children node) [];
  let node := StoryNode.set_children new_responses node in
  match self_voices with
  | None => Raise AttributeError
  | Some voices =>
      Ok (StoryNode.set_text (voice_loop voices (StoryNode.text node)) node)
  end.

(** Lines 143-168: the intents and the nodes as they stand before the
    tree is built. *)
Definition extract_intents (self : t)
    : result (list Intent.json * list StoryNode.t) :=
  let nodes1 := annotate <$> nodes self in
  let responses := list_set (collect_responses (nodes self)) in
  let '(intents, response_to_intent) := intents_loop responses [] ∅ in
  nodes2 ← mapM (rewrite_node (voices self) response_to_intent) nodes1;
  Ok (intents, nodes2).

(** [{node.id : node for node in self.nodes}] *)
Definition store_of_nodes (nodes : list StoryNode.t) : store :=
  foldl (λ m node, <[StoryNode.id node := node]> m) ∅ nodes.

(** [tree[0].conditions = "conversation_start"] *)
Definition set_start (tree : list ref) (story_nodes : store)
    : result (list ref * store) :=
  match tree with
  | [] => Raise IndexError
  | node_ref key :: _ =>
      Ok (tree, alter (StoryNode.set_conditions (Some "conversation_start"))
                      key story_nodes)
  | o :: tree' =>
      Ok (pointer_set_conditions "conversation_start" o :: tree', story_nodes)
  end.

(** [export]; a dict lists its keys by first insertion, so
    [list(nodes.keys())[0]] is the id of the first node. *)
Definition export (fuel : nat) (self : t) : result document :=
  '(intents, nodes2) ← extract_intents self;
  let story_nodes := store_of_nodes nodes2 in
  match nodes2 with
  | [] => Raise IndexError
  | first :: _ =>
      '(tree0, story_nodes') ← tree fuel (StoryNode.id first) story_nodes;
      '(tree1, story_nodes'') ← set_start tree0 story_nodes';
      dialog_nodes ← mapM (Encode.encode story_nodes'') tree1;
      Ok {| intents := intents; dialog_nodes := dialog_nodes |}
  end.
End export.
End StoryTree.

(** ** Specification vocabulary *)

(** The mark the walk uses for "this node has a place in the tree". *)
Definition placed (story_nodes : store) (key : string) : Prop :=
  ∃ n, story_nodes !! key = Some n ∧ StoryNode.parent n ≠ None.

(** Number of nodes that have no parent yet. *)
Definition unplaced (story_nodes : store) : nat :=
  size (filter (λ kv, StoryNode.parent kv.2 = None) story_nodes).

(** Every choice of every node leads to a node of the dictionary. *)
Definition closed (story_nodes : store) : Prop :=
  ∀ key n response target,
    story_nodes !! key = Some n →
    (response, target) ∈ StoryNode.children n →
    is_Some (story_nodes !! target).

(** Nodes as they are loaded: no link has been assigned. *)
Definition fresh (n : StoryNode.t) : Prop :=
  StoryNode.parent n = None ∧ StoryNode.previous_sibling n = None
  ∧ StoryNode.conditions n = None.

(** Keys are the ids of the nodes they hold. *)
Definition keyed (story_nodes : store) : Prop :=
  ∀ key n, story_nodes !! key = Some n → StoryNode.id n = key.

(** How one node may change during a walk: only its links, only while it
    has no parent, and the parent is never taken away. *)
Definition node_evolves (n n' : StoryNode.t) : Prop :=
  StoryNode.id n' = StoryNode.id n
  ∧ StoryNode.text n' = StoryNode.text n
  ∧ StoryNode.children n' = StoryNode.children n
  ∧ (StoryNode.parent n ≠ None → n' = n)
  ∧ (StoryNode.parent n' = None → n' = n).

Definition extends (σ σ' : store) : Prop :=
  ∀ key, option_Forall2 node_evolves (σ !! key) (σ' !! key).

(** Big-step description of the runs of [tree] that return: [walk self σ
    out σ'] for the call, [walk_loop self items prev σ produced σ'] for the
    loop, [produced] being what it appends to [nodes]. *)
Inductive walk : string → store → list ref → store → Prop :=
| walk_node self σ this produced σ' :
    σ !! self = Some this →
    walk_loop self (StoryNode.children this) None σ produced σ' →
    walk self σ (node_ref self :: produced) σ'
with walk_loop : string → dict → option ref → store → list ref → store → Prop :=
| walk_done self prev σ :
    walk_loop self [] prev σ [] σ
| walk_place self response target items prev σ child sub σ1 rest σ' :
    σ !! target = Some child →
    StoryNode.parent child = None →
    is_Some (σ !! self) →
    walk target (<[target := place_child self prev response child]> σ) sub σ1 →
    walk_loop self items (Some (node_ref target)) σ1 rest σ' →
    walk_loop self ((response, target) :: items) prev σ (sub ++ rest) σ'
| walk_pointer self response target items prev σ child rest σ' :
    σ !! target = Some child →
    StoryNode.parent child ≠ None →
    walk_loop self items (Some (pointer_ref self target response prev)) σ rest σ' →
    walk_loop self ((response, target) :: items) prev σ
              (pointer_ref self target response prev :: rest) σ'.

Scheme walk_min := Minimality for walk Sort Prop
  with walk_loop_min := Minimality for walk_loop Sort Prop.
Combined Scheme walk_mutind from walk_min, walk_loop_min.

(** What a run with enough budget looks like: it does not stop for lack
    of budget, and it leaves no more parentless nodes than it found. *)
Definition within_budget (σ : store) (r : result (list ref * store)) : Prop :=
  match r with
  | OutOfFuel => False
  | Raise _ => True
  | Ok (_, σ') => unplaced σ' ≤ unplaced σ
  end.

(** Every choice of every node of the list leads to the id of a node of
    the list. *)
Definition targets_exist (nodes : list StoryNode.t) : Prop :=
  Forall (λ n, Forall (λ rc, rc.2 ∈ StoryNode.id <$> nodes) (StoryNode.children n))
         nodes.

#[global] Instance targets_exist_dec nodes : Decision (targets_exist nodes).
Proof. unfold targets_exist. apply _. Defined.

(** ** The scenario of the specification

    [A] offers "go left" to [B] and "go right" to [C]; [B] offers "back"
    to [A]; [C] has no choice.  The voice map is empty. *)
Module Scenario.
Definition A : StoryNode.t :=
  StoryNode.init "A" "Hi" ["go left"; "go right"] ["B"; "C"].
Definition B : StoryNode.t := StoryNode.init "B" "Left room" ["back"] ["A"].
Definition C : StoryNode.t := StoryNode.init "C" "Right room" [] [].
Definition nodes : list StoryNode.t := [A; B; C].
Definition story : StoryTree.t := StoryTree.mk nodes (Some []).
End Scenario.

(** Decides a closed decidable proposition by evaluation. *)
Ltac by_compute := apply (bool_decide_unpack _); vm_compute; exact I.

(** The key that replaces a choice label in the rewritten mapping. *)
Definition intent_ref (r : string) : string :=
  if decide (r ∈ reserved) then r else "#" +:+ safe_response r.

(** The intent made for a label. *)
Definition intent_of (r : string) : Intent.json :=
  Intent.encode (Intent.mk (safe_response r) [r]).

(** A mapping rebuilt entry by entry under renamed keys. *)
Definition dict_rename (f : string → string) (d acc : dict) : dict :=
  foldl (λ acc rc, dict_set acc (f rc.1) rc.2) acc d.

(** [list(set(l))] lists the distinct elements of [l], each once. *)
Definition enumerates (list_set : list string → list string) : Prop :=
  ∀ l, NoDup (list_set l) ∧ ∀ x, x ∈ list_set l ↔ x ∈ l.

(** The node that [export] hands to the tree for a loaded node: its text
    annotated, then its mapping renamed and the voice markup applied. *)
Definition relabel (re_sub : string → string → string → string)
    (voices : dict) (node : StoryNode.t) : StoryNode.t :=
  let node :=
    StoryNode.set_children (dict_rename intent_ref (StoryNode.children node) [])
                           node in
  StoryNode.set_text (StoryTree.voice_loop re_sub voices (StoryNode.text node))
                     node.

Definition rewritten (re_sub : string → string → string → string)
    (voices : dict) (node : StoryNode.t) : StoryNode.t :=
  relabel re_sub voices (StoryTree.annotate node).

(** The dictionary the tree is built from. *)
Definition story_nodes_of (re_sub : string → string → string → string)
    (voices : dict) (nodes : list StoryNode.t) : store :=
  StoryTree.store_of_nodes (rewritten re_sub voices <$> nodes).

(** The dictionary after [tree[0].conditions = "conversation_start"]. *)
Definition started (root : string) (σ : store) : store :=
  alter (StoryNode.set_conditions (Some "conversation_start")) root σ.

(** A [re.sub] that finds no match. *)
Definition no_match (pattern repl text : string) : string := text.

(** The records and intents of the scenario, as [encode] shapes them. *)
Module Expected.
Definition content (id text : string) (parent previous_sibling : option string)
    (conditions : string) : json_node :=
  {| title := id; output := Some ("<speak>" +:+ text +:+ "</speak>");
     next_step := None; dialog_node := id; parent := parent;
     previous_sibling := previous_sibling; conditions := Some conditions |}.

Definition jump (source target : string) (previous_sibling : option string)
    (conditions : string) : json_node :=
  {| title := target; output := None; next_step := Some target;
     dialog_node := source +:+ "-" +:+ target; parent := Some source;
     previous_sibling := previous_sibling; conditions := Some conditions |}.

Definition text_A : string :=
  "Hi" +:+ nl +:+ "Do you: " +:+ nl +:+ "go left?" +:+ nl +:+ "go right?" +:+ nl.
Definition text_B : string :=
  "Left room" +:+ nl +:+ "Do you: " +:+ nl +:+ "back?" +:+ nl.

(** What [export] puts in [dialog_nodes] for the scenario. *)
Definition records : list json_node :=
  [ content "A" text_A (Some "B") None "conversation_start";
    content "B" text_B (Some "A") None "#go_left";
    content "A" text_A (Some "B") None "conversation_start";
    jump "A" "B" None "#go_left";
    content "C" "Right room" (Some "A") (Some "A-B") "#go_right";
    jump "A" "C" (Some "B") "#go_right" ].

Definition intents : list Intent.json :=
  [ intent_of "go left"; intent_of "go right"; intent_of "back" ].
End Expected.

(** A content record for the node with the given id. *)
Definition is_content_of (id : string) (j : json_node) : Prop :=
  dialog_node j = id ∧ next_step j = None.

#[global] Instance is_content_of_dec id j : Decision (is_content_of id j).
Proof. unfold is_content_of. apply _. Defined.

#[global] Instance intent_json_eq_dec : EqDecision Intent.json.
Proof. solve_decision. Defined.

(** The previous sibling of an element of the output. *)
Definition prev_of (σ : store) (o : ref) : option ref :=
  match o with
  | node_ref key => σ !! key ≫= StoryNode.previous_sibling
  | pointer_ref _ _ _ previous_sibling => previous_sibling
  end.

(** [o] is the record made for the choice [response] to [target] of the
    node [self]: the node [target] placed under [self] with that
    condition, or a pointer from [self] to [target] with that condition. *)
Definition record_of (σ : store) (self response target : string) (o : ref)
    : Prop :=
  match o with
  | node_ref key =>
      key = target
      ∧ ∃ n, σ !! key = Some n
             ∧ StoryNode.parent n = Some self
             ∧ StoryNode.conditions n = Some response
  | pointer_ref source target' conditions _ =>
      source = self ∧ target' = target ∧ conditions = response
  end.

(** [records] are the records of the choices [items] of [self], one for
    each and in the same order, each having its predecessor as previous
    sibling and the first one having [prev]. *)
Fixpoint sibling_chain (σ : store) (self : string) (items : dict)
    (prev : option ref) (records : list ref) : Prop :=
  match items, records with
  | [], [] => True
  | (response, target) :: items', o :: records' =>
      record_of σ self response target o
      ∧ prev_of σ o = prev
      ∧ sibling_chain σ self items' (Some o) records'
  | _, _ => False
  end.

(** Nodes without a parent have no previous sibling. *)
Definition unlinked (σ : store) : Prop :=
  ∀ key n, σ !! key = Some n → StoryNode.parent n = None →
           StoryNode.previous_sibling n = None.

(** Every node of the output has the chain of the records of its
    choices in the output. *)
Definition chains (σ' : store) (out : list ref) : Prop :=
  ∀ key n, node_ref key ∈ out → σ' !! key = Some n →
    ∃ records, sublist records out
               ∧ sibling_chain σ' key (StoryNode.children n) None records.

(** [x] occurs in [l] before an occurrence of [y]. *)
Definition precedes (x y : ref) (l : list ref) : Prop :=
  ∃ before after, l = before ++ y :: after ∧ x ∈ before.

(** The node [source] has the choice [response] leading to [target]. *)
Definition choice_of (σ : store) (source response target : string) : Prop :=
  ∃ n, σ !! source = Some n ∧ (response, target) ∈ StoryNode.children n.

(** [y] is the target of a choice of the node [x]. *)
Definition edge (σ : store) (x y : string) : Prop :=
  ∃ label, choice_of σ x label y.

(** The keys that the choices lead to from [root], step by step. *)
Definition reachable (σ : store) (root : string) : string → Prop :=
  rtc (edge σ) root.

(** The exception of a dictionary lookup that failed on a target reached
    from [self]. *)
Definition missing_target (σ : store) (self : string) (e : exn) : Prop :=
  ∃ key, e = KeyError key ∧ σ !! key = None ∧ reachable σ self key.

(** All choices of the node [x] lead to nodes that have a parent. *)
Definition walked (σ : store) (x : string) : Prop :=
  ∀ y, edge σ x y → placed σ y.

#[global] Instance placed_dec (σ : store) key : Decision (placed σ key).
Proof.
  unfold placed. destruct (σ !! key) as [n|] eqn:Hn.
  - destruct (StoryNode.parent n) as [p|] eqn:Hp.
    + left. exists n. split; [done | congruence].
    + right. intros (n' & [= <-] & Hparent). done.
  - right. intros (n' & [=] & _).
Defined.

(** The keys of the nodes in a list of output elements, pointers left
    out. *)
Definition node_keys (out : list ref) : list string :=
  omap (λ o, match o with node_ref key => Some key | _ => None end) out.

(** A script whose root has three choices to the same node. *)
Module Repeat.
Definition X : StoryNode.t :=
  StoryNode.init "X" "Door" ["push"; "pull"; "kick"] ["Y"; "Y"; "Y"].
Definition Y : StoryNode.t := StoryNode.init "Y" "Hall" [] [].
Definition nodes : list StoryNode.t := [X; Y].
End Repeat.

(** Two small scripts with a choice that leads to no node: in the first
    the choice is the root's, in the second it belongs to a node that no
    choice leads to. *)
Module Dangling.
Definition A : StoryNode.t := StoryNode.init "A" "Start" ["x"] ["Z"].
Definition story : StoryTree.t := StoryTree.mk [A] (Some []).
End Dangling.

Module Unreached.
Definition A : StoryNode.t := StoryNode.init "A" "Start" [] [].
Definition B : StoryNode.t := StoryNode.init "B" "Aside" ["x"] ["Z"].
Definition story : StoryTree.t := StoryTree.mk [A; B] (Some []).
End Unreached.

(** The parent and the condition of an element of the output. *)
Definition parent_of (σ : store) (o : ref) : option string :=
  match o with
  | node_ref key => σ !! key ≫= StoryNode.parent
  | pointer_ref source _ _ _ => Some source
  end.

Definition condition_of (σ : store) (o : ref) : option string :=
  match o with
  | node_ref key => σ !! key ≫= StoryNode.conditions
  | pointer_ref _ _ conditions _ => Some conditions
  end.

(** The key an element of the output stands for: the node itself, or the
    target of the pointer. *)
Definition target_of (o : ref) : string :=
  match o with
  | node_ref key => key
  | pointer_ref _ target _ _ => target
  end.

(** The characters of a string. *)
Fixpoint chars (s : string) : list ascii :=
  match s with
  | EmptyString => []
  | String c s' => c :: chars s'
  end.

(** [d.get(k)]: the value under a key of a [dict], if any. *)
Fixpoint dict_get (d : dict) (k : string) : option string :=
  match d with
  | [] => None
  | (k', v) :: d' => if decide (k' = k) then Some v else dict_get d' k
  end.

(** A node with two labels that are sanitized alike. *)
Module Collision.
Definition A : StoryNode.t :=
  StoryNode.init "A" "Gate" ["can't go"; "can t go"] ["B"; "C"].
Definition B : StoryNode.t := StoryNode.init "B" "Back" [] [].
Definition C : StoryNode.t := StoryNode.init "C" "Stay" [] [].
Definition story : StoryTree.t := StoryTree.mk [A; B; C] (Some []).
End Collision.

(** ** Loading: [load_from_csv], [load_voice_file], [load_from_console]

    The loaders are modelled from what they read on: the rows that
    [csv.reader] yields, the lines that [readlines] returns and the lines
    that [input] hands over, one per call. *)
Module Load.
Inductive exn :=
| IndexError
| UnboundLocalError
| ValueError
| EOFError.

Inductive outcome (A : Type) :=
| Returns (a : A)
| Raises (e : exn).
Arguments Returns {A} a.
Arguments Raises {A} e.

(** [list(filter(lambda field : field != "", line))] *)
Definition fields (line : list string) : list string :=
  filter (λ field, field ≠ "") line.

(** [node.children[response] = child] for each pair of the [zip]. *)
Definition add_children (node : StoryNode.t) (pairs : dict) : StoryNode.t :=
  foldl (λ node rc,
           StoryNode.set_children
             (dict_set (StoryNode.children node) rc.1 rc.2) node)
        node pairs.

(** One pass of the loop of [load_from_csv].  [behaviour] is the local
    variable of that name, [None] as long as nothing was assigned to it;
    it is assigned only for a row that has responses. *)
Definition load_row (behaviour : option (list string)) (line : list string)
    : outcome (StoryNode.t * option (list string)) :=
  let line := fields line in
  match line with
  | id :: text :: _ =>
      let node := StoryNode.init id text [] [] in
      let num_responses := (length line - 2) / 2 in
      let behaviour :=
        if decide (0 < num_responses) then Some (drop 2 line) else behaviour in
      match behaviour with
      | None => Raises UnboundLocalError
      | Some b =>
          Returns (add_children node
                     (zip (take num_responses b) (drop num_responses b)),
                   behaviour)
      end
  | _ => Raises IndexError
  end.

Fixpoint load_rows (rows : list (list string))
    (behaviour : option (list string)) (nodes : list StoryNode.t)
    : outcome (list StoryNode.t) :=
  match rows with
  | [] => Returns nodes
  | line :: rows' =>
      match load_row behaviour line with
      | Returns (node, behaviour') => load_rows rows' behaviour' (nodes ++ [node])
      | Raises e => Raises e
      end
  end.

(** [load_from_csv]: the value of [self.nodes] after the loop over the
    rows of the reader. *)
Definition load_from_csv (rows : list (list string))
    : outcome (list StoryNode.t) :=
  load_rows rows None [].

(** [s.split(sep)] for a one-character separator. *)
Fixpoint split (sep : ascii) (s : string) : list string :=
  match s with
  | EmptyString => [EmptyString]
  | String c s' =>
      if decide (c = sep) then EmptyString :: split sep s'
      else
        match split sep s' with
        | piece :: pieces => String c piece :: pieces
        | [] => [String c EmptyString]
        end
  end.

(** [s[:-1]] *)
Fixpoint drop_last (s : string) : string :=
  match s with
  | EmptyString => EmptyString
  | String c s' =>
      match s' with
      | EmptyString => EmptyString
      | String _ _ => String c (drop_last s')
      end
  end.

(** The loop of [load_voice_file] over [f.readlines()]:
    [name, voice_name = line[:-1].split(",")] raises [ValueError] unless
    the split gives two pieces. *)
Fixpoint load_voice_lines (lines : list string) (voices : dict)
    : outcome dict :=
  match lines with
  | [] => Returns voices
  | line :: lines' =>
      match split "," (drop_last line) with
      | [name; voice_name] =>
          load_voice_lines lines' (dict_set voices name voice_name)
      | _ => Raises ValueError
      end
  end.

Definition load_voice_file (lines : list string) : outcome dict :=
  load_voice_lines lines [].

(** The [while response != ""] loop of [load_from_console]; [inputs] are
    the lines that the next calls of [input] return. *)
Fixpoint console_loop (node : StoryNode.t) (response : string)
    (inputs : list string) : outcome (StoryNode.t * list string) :=
  if decide (response = "") then Returns (node, inputs)
  else
    match inputs with
    | child :: response' :: inputs' =>
        console_loop
          (StoryNode.set_children
             (dict_set (StoryNode.children node) response child) node)
          response' inputs'
    | _ => Raises EOFError
    end.

(** [load_from_console]: the node returned ([None] for an empty id) and
    the lines left unread. *)
Definition load_from_console (inputs : list string)
    : outcome (option StoryNode.t * list string) :=
  match inputs with
  | [] => Raises EOFError
  | id :: inputs1 =>
      if decide (id = "") then Returns (None, inputs1)
      else
        match inputs1 with
        | text :: response :: inputs2 =>
            match console_loop (StoryNode.init id text [] []) response inputs2 with
            | Returns (node, inputs3) => Returns (Some node, inputs3)
            | Raises e => Raises e
            end
        | _ => Raises EOFError
        end
  end.
End Load.

(** The node that [load_from_csv] makes of a row: the first two fields
    that are not empty are id and text; of the [2k] or [2k+1] fields that
    follow, the first [k] are the labels and the next [k] the targets. *)
Definition row_node (line : list string) (n : StoryNode.t) : Prop :=
  ∃ id text behaviour,
    Load.fields line = id :: text :: behaviour
    ∧ n = StoryNode.init id text
            (take (length behaviour / 2) behaviour)
            (drop (length behaviour / 2) behaviour).

(** The number of commas of a string. *)
Definition commas (s : string) : nat :=
  length (filter (λ c, c = ","%char) (chars s)).

(** The line of a voice file for a name and a voice, ended by the
    character [c]. *)
Definition voice_line (entry : string * string * ascii) : string :=
  entry.1.1 +:+ "," +:+ entry.1.2 +:+ String entry.2 EmptyString.

(** The lines typed for the choices: label, then target. *)
Definition typed (pairs : dict) : list string :=
  mjoin ((λ rc, [rc.1; rc.2]) <$> pairs).

(** * Properties *)

(** ** Basic facts *)

Lemma make_pointer_eq self target prev response :
  make_pointer self target prev response = pointer_ref self target response prev.
Proof. by destruct prev. Qed.

Lemma place_child_id self prev response child :
  StoryNode.id (place_child self prev response child) = StoryNode.id child.
Proof. by destruct prev. Qed.

Lemma place_child_text self prev response child :
  StoryNode.text (place_child self prev response child) = StoryNode.text child.
Proof. by destruct prev. Qed.

Lemma place_child_children self prev response child :
  StoryNode.children (place_child self prev response child)
  = StoryNode.children child.
Proof. by destruct prev. Qed.

Lemma place_child_parent self prev response child :
  StoryNode.parent (place_child self prev response child) = Some self.
Proof. by destruct prev. Qed.

Lemma place_child_conditions self prev response child :
  StoryNode.conditions (place_child self prev response child) = Some response.
Proof. by destruct prev. Qed.

Lemma place_child_previous_sibling self prev response child :
  StoryNode.previous_sibling child = None →
  StoryNode.previous_sibling (place_child self prev response child) = prev.
Proof. by destruct prev. Qed.

(** *** The relation covers every returning run *)

Lemma tree_loop_walk rec self :
  (∀ k σ out σ', rec k σ = Ok (out, σ') → walk k σ out σ') →
  ∀ items prev nodes σ out σ',
    tree_loop rec self items prev nodes σ = Ok (out, σ') →
    ∃ produced, out = nodes ++ produced ∧ walk_loop self items prev σ produced σ'.
Proof.
  intros Hrec. induction items as [|[response target] items IH];
    intros prev nodes σ out σ' Hrun; simpl in Hrun.
  - inversion Hrun; subst. exists []. split; [by rewrite app_nil_r | constructor].
  - destruct (σ !! target) as [child|] eqn:Hchild; [|done].
    destruct (StoryNode.parent child) as [p|] eqn:Hparent.
    + rewrite make_pointer_eq in Hrun.
      apply IH in Hrun as (produced & -> & Hloop).
      exists (pointer_ref self target response prev :: produced).
      split; [by rewrite <- app_assoc|].
      eapply walk_pointer; [done | congruence | done].
    + destruct (σ !! self) as [this|] eqn:Hself; [|done].
      destruct (rec target _) as [[sub σ1]| |] eqn:Hsub; [|done..].
      apply Hrec in Hsub.
      apply IH in Hrun as (produced & -> & Hloop).
      exists (sub ++ produced). split; [by rewrite app_assoc|].
      eapply walk_place; eauto.
Qed.

Lemma tree_walk fuel :
  ∀ self σ out σ', tree fuel self σ = Ok (out, σ') → walk self σ out σ'.
Proof.
  induction fuel as [|fuel IH]; intros self σ out σ' Hrun; simpl in Hrun; [done|].
  destruct (σ !! self) as [this|] eqn:Hself; [|done].
  apply (tree_loop_walk _ _ IH) in Hrun as (produced & -> & Hloop).
  by econstructor.
Qed.

(** *** How the dictionary evolves *)

Lemma node_evolves_refl n : node_evolves n n.
Proof. by repeat split. Qed.

Lemma node_evolves_trans n1 n2 n3 :
  node_evolves n1 n2 → node_evolves n2 n3 → node_evolves n1 n3.
Proof.
  intros (Hi1 & Ht1 & Hc1 & Hp1 & Hu1) (Hi2 & Ht2 & Hc2 & Hp2 & Hu2).
  repeat split; try congruence.
  - intros Hp. specialize (Hp1 Hp); subst n2. auto.
  - intros Hu. specialize (Hu2 Hu); subst n3. auto.
Qed.

Lemma extends_refl σ : extends σ σ.
Proof.
  intros key. destruct (σ !! key); constructor. apply node_evolves_refl.
Qed.

Lemma extends_trans σ1 σ2 σ3 : extends σ1 σ2 → extends σ2 σ3 → extends σ1 σ3.
Proof.
  intros H12 H23 key. specialize (H12 key). specialize (H23 key).
  destruct H12; inversion H23; subst; constructor.
  eapply node_evolves_trans; eauto.
Qed.

Lemma extends_lookup σ σ' key n :
  extends σ σ' → σ !! key = Some n →
  ∃ n', σ' !! key = Some n' ∧ node_evolves n n'.
Proof.
  intros Hext Hn. specialize (Hext key). rewrite Hn in Hext.
  inversion Hext; subst. eauto.
Qed.

Lemma extends_lookup_inv σ σ' key n' :
  extends σ σ' → σ' !! key = Some n' →
  ∃ n, σ !! key = Some n ∧ node_evolves n n'.
Proof.
  intros Hext Hn. specialize (Hext key). rewrite Hn in Hext.
  inversion Hext; subst. eauto.
Qed.

Lemma extends_is_Some σ σ' key :
  extends σ σ' → is_Some (σ !! key) ↔ is_Some (σ' !! key).
Proof.
  intros Hext. specialize (Hext key).
  destruct Hext; split; intros [? ?]; eauto; done.
Qed.

Lemma extends_placed σ σ' key : extends σ σ' → placed σ key → placed σ' key.
Proof.
  intros Hext (n & Hn & Hp).
  destruct (extends_lookup _ _ _ _ Hext Hn) as (n' & Hn' & He).
  destruct He as (_ & _ & _ & Hfrozen & _).
  rewrite (Hfrozen Hp) in Hn'. by exists n.
Qed.

(** A placed node is never touched again. *)
Lemma extends_frozen σ σ' key n :
  extends σ σ' → σ !! key = Some n → StoryNode.parent n ≠ None →
  σ' !! key = Some n.
Proof.
  intros Hext Hn Hp.
  destruct (extends_lookup _ _ _ _ Hext Hn) as (n' & Hn' & He).
  destruct He as (_ & _ & _ & Hfrozen & _). by rewrite <- (Hfrozen Hp).
Qed.

(** A node that is still without a parent has not been touched. *)
Lemma extends_untouched σ σ' key n' :
  extends σ σ' → σ' !! key = Some n' → StoryNode.parent n' = None →
  σ !! key = Some n'.
Proof.
  intros Hext Hn Hp.
  destruct (extends_lookup_inv _ _ _ _ Hext Hn) as (n & Hn0 & He).
  destruct He as (_ & _ & _ & _ & Hsame). by rewrite (Hsame Hp).
Qed.

Lemma extends_place σ self prev response target child :
  σ !! target = Some child → StoryNode.parent child = None →
  extends σ (<[target := place_child self prev response child]> σ).
Proof.
  intros Hchild Hparent key. destruct (decide (target = key)) as [<-|Hne].
  - rewrite lookup_insert_eq, Hchild. constructor.
    repeat split.
    + apply place_child_id.
    + apply place_child_text.
    + apply place_child_children.
    + congruence.
    + by rewrite place_child_parent.
  - rewrite lookup_insert_ne by done.
    destruct (σ !! key); constructor. apply node_evolves_refl.
Qed.

Lemma extends_closed σ σ' : extends σ σ' → closed σ → closed σ'.
Proof.
  intros Hext Hclosed key n' response target Hn' Hin.
  destruct (extends_lookup_inv _ _ _ _ Hext Hn') as (n & Hn & He).
  destruct He as (_ & _ & Hc & _). rewrite Hc in Hin.
  apply (extends_is_Some _ _ target Hext). eauto.
Qed.

Lemma extends_keyed σ σ' : extends σ σ' → keyed σ → keyed σ'.
Proof.
  intros Hext Hkeyed key n' Hn'.
  destruct (extends_lookup_inv _ _ _ _ Hext Hn') as (n & Hn & He).
  destruct He as (Hi & _). rewrite Hi. eauto.
Qed.

Lemma walk_extends_mutual :
  (∀ self σ out σ', walk self σ out σ' → extends σ σ')
  ∧ (∀ self items prev σ produced σ',
       walk_loop self items prev σ produced σ' → extends σ σ').
Proof.
  apply walk_mutind.
  - auto.
  - intros. apply extends_refl.
  - intros self response target items prev σ child sub σ1 rest σ'
      Hchild Hparent _ _ IHsub _ IHrest.
    eapply extends_trans; [|exact IHrest].
    eapply extends_trans; [|exact IHsub].
    by apply extends_place.
  - auto.
Qed.

Lemma walk_extends self σ out σ' : walk self σ out σ' → extends σ σ'.
Proof. apply walk_extends_mutual. Qed.

Lemma walk_loop_extends self items prev σ produced σ' :
  walk_loop self items prev σ produced σ' → extends σ σ'.
Proof. apply walk_extends_mutual. Qed.

(** *** Counting the nodes without a parent *)

Lemma unplaced_place σ target child child' :
  σ !! target = Some child → StoryNode.parent child = None →
  StoryNode.parent child' ≠ None →
  S (unplaced (<[target := child']> σ)) = unplaced σ.
Proof.
  intros Hchild Hparent Hparent'. unfold unplaced.
  rewrite map_filter_insert_False by done.
  rewrite map_filter_delete.
  assert (filter (λ kv, StoryNode.parent kv.2 = None) σ !! target = Some child)
    as Hin by (by apply map_lookup_filter_Some).
  rewrite map_size_delete, Hin.
  assert (size (filter (λ kv, StoryNode.parent kv.2 = None) σ) ≠ 0).
  { apply map_size_ne_0_lookup. eauto. }
  simpl. lia.
Qed.

Lemma unplaced_le_size (σ : store) : unplaced σ ≤ size σ.
Proof. unfold unplaced. apply map_subseteq_size, map_filter_subseteq. Qed.

(** *** The recursion budget *)

Lemma tree_loop_within_budget rec self bound :
  (∀ k σ, unplaced σ < bound → within_budget σ (rec k σ)) →
  ∀ items prev nodes σ,
    unplaced σ ≤ bound →
    within_budget σ (tree_loop rec self items prev nodes σ).
Proof.
  intros Hrec. induction items as [|[response target] items IH];
    intros prev nodes σ Hbound; simpl.
  - done.
  - destruct (σ !! target) as [child|] eqn:Hchild; [|done].
    destruct (StoryNode.parent child) as [p|] eqn:Hparent; [by apply IH|].
    destruct (σ !! self) as [this|]; [|done].
    pose proof (unplaced_place σ target child
                  (place_child self prev response child) Hchild Hparent) as Hcount.
    rewrite place_child_parent in Hcount. specialize (Hcount ltac:(done)).
    pose proof (Hrec target (<[target := place_child self prev response child]> σ)
                  ltac:(lia)) as Hsub.
    destruct (rec target _) as [[sub σ1]| |]; [|done..].
    simpl in Hsub.
    specialize (IH (Some (node_ref target)) (nodes ++ sub) σ1 ltac:(lia)).
    destruct (tree_loop rec self items _ _ σ1) as [[out σ']| |]; [|done..].
    simpl in *. lia.
Qed.

Lemma tree_within_budget fuel :
  ∀ self σ, unplaced σ < fuel → within_budget σ (tree fuel self σ).
Proof.
  induction fuel as [|fuel IH]; intros self σ Hfuel; [lia|]. simpl.
  destruct (σ !! self) as [this|]; [|done].
  apply (tree_loop_within_budget _ _ fuel); [auto | lia].
Qed.

(** A result obtained with some budget is obtained with any larger one. *)
Lemma tree_loop_budget_mono rec1 rec2 self :
  (∀ k σ, rec1 k σ ≠ OutOfFuel → rec2 k σ = rec1 k σ) →
  ∀ items prev nodes σ,
    tree_loop rec1 self items prev nodes σ ≠ OutOfFuel →
    tree_loop rec2 self items prev nodes σ = tree_loop rec1 self items prev nodes σ.
Proof.
  intros Hrec. induction items as [|[response target] items IH];
    intros prev nodes σ Hrun; simpl in *; [done|].
  destruct (σ !! target) as [child|]; [|done].
  destruct (StoryNode.parent child); [by apply IH|].
  destruct (σ !! self); [|done].
  destruct (rec1 target _) as [[sub σ1]| |] eqn:Hsub; [| |done].
  - rewrite Hrec, Hsub by (by rewrite Hsub). by apply IH.
  - by rewrite Hrec, Hsub by (by rewrite Hsub).
Qed.

Lemma tree_S fuel self σ :
  tree (S fuel) self σ
  = match σ !! self with
    | None => Raise (KeyError self)
    | Some this =>
        tree_loop (tree fuel) self (StoryNode.children this) None
                  [node_ref self] σ
    end.
Proof. reflexivity. Qed.

Lemma tree_budget_S fuel :
  ∀ self σ, tree fuel self σ ≠ OutOfFuel →
            tree (S fuel) self σ = tree fuel self σ.
Proof.
  induction fuel as [|fuel IH]; intros self σ Hrun; [done|].
  rewrite (tree_S (S fuel)). rewrite tree_S in Hrun |- *.
  destruct (σ !! self) as [this|]; [|done].
  by apply tree_loop_budget_mono.
Qed.

Lemma tree_budget_mono fuel fuel' self σ :
  fuel ≤ fuel' → tree fuel self σ ≠ OutOfFuel →
  tree fuel' self σ = tree fuel self σ.
Proof.
  induction 1 as [|fuel' _ IH]; intros Hrun; [done|].
  rewrite tree_budget_S; [auto | by rewrite IH].
Qed.

(** *** No exception on closed dictionaries *)

Lemma tree_loop_no_raise rec self :
  (∀ k σ out σ', rec k σ = Ok (out, σ') → walk k σ out σ') →
  (∀ k σ e, closed σ → is_Some (σ !! k) → rec k σ ≠ Raise e) →
  ∀ items prev nodes σ e,
    closed σ → is_Some (σ !! self) →
    (∀ response target, (response, target) ∈ items → is_Some (σ !! target)) →
    tree_loop rec self items prev nodes σ ≠ Raise e.
Proof.
  intros Hwalk Hrec. induction items as [|[response target] items IH];
    intros prev nodes σ e Hclosed Hself Hitems; simpl; [done|].
  destruct (Hitems response target ltac:(left)) as [child Hchild].
  rewrite Hchild.
  assert (∀ r t, (r, t) ∈ items → is_Some (σ !! t)) as Hitems'
    by (intros; eapply Hitems; by right).
  destruct (StoryNode.parent child) as [p|] eqn:Hparent; [by apply IH|].
  destruct Hself as [this Hself]. rewrite Hself.
  pose proof (extends_place σ self prev response target child Hchild Hparent)
    as Hext.
  destruct (rec target _) as [[sub σ1]| |] eqn:Hsub; [| |done].
  - apply Hwalk, walk_extends in Hsub.
    pose proof (extends_trans _ _ _ Hext Hsub) as Hext1.
    apply IH.
    + eapply extends_closed; eauto.
    + apply (extends_is_Some _ _ self Hext1); eauto.
    + intros r t Hin. apply (extends_is_Some _ _ t Hext1); eauto.
  - exfalso. eapply Hrec; [| |exact Hsub].
    + eapply extends_closed; eauto.
    + rewrite lookup_insert_eq; eauto.
Qed.

Lemma tree_no_raise fuel :
  ∀ self σ e, closed σ → is_Some (σ !! self) → tree fuel self σ ≠ Raise e.
Proof.
  induction fuel as [|fuel IH]; intros self σ e Hclosed Hself; [done|]. simpl.
  destruct Hself as [this Hself]. rewrite Hself.
  apply tree_loop_no_raise; eauto using tree_walk.
Qed.

(** *** The dictionary built from the list of nodes *)

Lemma store_of_nodes_snoc nodes n :
  StoryTree.store_of_nodes (nodes ++ [n])
  = <[StoryNode.id n := n]> (StoryTree.store_of_nodes nodes).
Proof. unfold StoryTree.store_of_nodes. by rewrite foldl_app. Qed.

Lemma store_of_nodes_lookup nodes key n :
  StoryTree.store_of_nodes nodes !! key = Some n →
  n ∈ nodes ∧ StoryNode.id n = key.
Proof.
  revert key n. induction nodes as [|m nodes IH] using rev_ind; intros key n.
  - unfold StoryTree.store_of_nodes. simpl. by rewrite lookup_empty.
  - rewrite store_of_nodes_snoc, lookup_insert.
    case_decide as Hkey.
    + intros [= <-]. split; [|done].
      apply elem_of_app. right. by apply list_elem_of_singleton.
    + intros Hn. destruct (IH _ _ Hn). split; [|done].
      apply elem_of_app. by left.
Qed.

Lemma store_of_nodes_is_Some nodes key :
  key ∈ StoryNode.id <$> nodes ↔ is_Some (StoryTree.store_of_nodes nodes !! key).
Proof.
  induction nodes as [|m nodes IH] using rev_ind.
  - unfold StoryTree.store_of_nodes. simpl. rewrite lookup_empty.
    split; [by intros ?%elem_of_nil | by intros [? ?]].
  - rewrite store_of_nodes_snoc, fmap_app, elem_of_app, lookup_insert.
    simpl. rewrite list_elem_of_singleton. case_decide as Hkey.
    + split; [eauto | auto].
    + rewrite IH. split; [intros [?| ->]; done | auto].
Qed.

Lemma store_of_nodes_keyed nodes : keyed (StoryTree.store_of_nodes nodes).
Proof. intros key n Hn. by apply store_of_nodes_lookup in Hn as [_ ?]. Qed.

Lemma store_of_nodes_size nodes :
  size (StoryTree.store_of_nodes nodes) ≤ length nodes.
Proof.
  induction nodes as [|m nodes IH] using rev_ind; [done|].
  rewrite store_of_nodes_snoc, length_app. simpl.
  pose proof (map_size_insert (StoryNode.id m) m (StoryTree.store_of_nodes nodes)).
  destruct (StoryTree.store_of_nodes nodes !! StoryNode.id m); simpl in *; lia.
Qed.

(** ** Termination of the reduction *)

Lemma targets_exist_closed nodes :
  targets_exist nodes → closed (StoryTree.store_of_nodes nodes).
Proof.
  intros Hall key n response target Hn Hin.
  apply store_of_nodes_lookup in Hn as [Hn _].
  apply store_of_nodes_is_Some.
  unfold targets_exist in Hall. rewrite Forall_forall in Hall.
  specialize (Hall n Hn). rewrite Forall_forall in Hall.
  exact (Hall (response, target) Hin).
Qed.

Lemma tree_returns (σ : store) self :
  closed σ → is_Some (σ !! self) →
  ∃ out σ', ∀ fuel, size σ < fuel → tree fuel self σ = Ok (out, σ').
Proof.
  intros Hclosed Hself.
  pose proof (tree_within_budget (S (size σ)) self σ) as Hbudget.
  pose proof (tree_no_raise (S (size σ)) self σ) as Hraise.
  pose proof (unplaced_le_size σ).
  destruct (tree (S (size σ)) self σ) as [[out σ']|e|] eqn:Hrun.
  - exists out, σ'. intros fuel Hfuel.
    rewrite (tree_budget_mono (S (size σ)) fuel) by (rewrite ?Hrun; done || lia).
    done.
  - exfalso. by eapply Hraise.
  - exfalso. apply Hbudget. lia.
Qed.

(** C9. On a list of nodes all of whose choices lead to nodes of the list,
    [tree] called on any of them returns: some output and final dictionary
    are the result for every recursion budget above the number of nodes,
    whatever cycles or shared targets the choices form. *)
Theorem tree_terminates (nodes : list StoryNode.t) (self : string) :
  targets_exist nodes →
  self ∈ StoryNode.id <$> nodes →
  ∃ out σ', ∀ fuel,
    length nodes < fuel →
    tree fuel self (StoryTree.store_of_nodes nodes) = Ok (out, σ').
Proof.
  intros Hall Hself.
  destruct (tree_returns (StoryTree.store_of_nodes nodes) self)
    as (out & σ' & Hrun).
  - by apply targets_exist_closed.
  - by apply store_of_nodes_is_Some.
  - exists out, σ'. intros fuel Hfuel. apply Hrun.
    pose proof (store_of_nodes_size nodes). lia.
Qed.

Lemma tree_terminates_witness :
  targets_exist Scenario.nodes
  ∧ "A" ∈ StoryNode.id <$> Scenario.nodes
  ∧ ∃ out σ', ∀ fuel,
      length Scenario.nodes < fuel →
      tree fuel "A" (StoryTree.store_of_nodes Scenario.nodes) = Ok (out, σ').
Proof.
  assert (targets_exist Scenario.nodes) as Hall
    by by_compute.
  assert ("A" ∈ StoryNode.id <$> Scenario.nodes) as Hself
    by by_compute.
  split; [exact Hall|]. split; [exact Hself|].
  exact (tree_terminates Scenario.nodes "A" Hall Hself).
Defined.

(** ** Intent extraction *)

Lemma dict_set_keys d k v :
  dict_keys (dict_set d k v)
  = if decide (k ∈ dict_keys d) then dict_keys d else dict_keys d ++ [k].
Proof.
  unfold dict_keys. induction d as [|[k' v'] d IH]; csimpl; [done|].
  destruct (decide (k' = k)) as [->|Hne]; csimpl.
  - rewrite decide_True by left. done.
  - rewrite IH. destruct (decide (k ∈ d.*1)) as [Hin|Hnin].
    + rewrite decide_True by (by right). done.
    + rewrite decide_False; [done|]. intros [?|?]%elem_of_cons; congruence.
Qed.

Lemma dict_set_elem_of d k v kv :
  kv ∈ dict_set d k v → kv ∈ d ∨ kv = (k, v).
Proof.
  induction d as [|[k' v'] d IH]; simpl.
  - intros ?%list_elem_of_singleton. by right.
  - destruct (decide (k' = k)) as [->|Hne].
    + intros [->|?]%elem_of_cons; [by right | left; by right].
    + intros [->|Hin]%elem_of_cons; [left; by left|].
      destruct (IH Hin); [left; by right | by right].
Qed.

Lemma dict_set_key_elem_of d k v : k ∈ dict_keys (dict_set d k v).
Proof.
  rewrite dict_set_keys. case_decide; [done|].
  apply elem_of_app. right. by apply list_elem_of_singleton.
Qed.

Lemma dict_set_key_mono d k v k' :
  k' ∈ dict_keys d → k' ∈ dict_keys (dict_set d k v).
Proof.
  intros Hin. rewrite dict_set_keys. case_decide; [done|].
  apply elem_of_app. by left.
Qed.

Lemma dict_set_fresh d k v : k ∉ dict_keys d → dict_set d k v = d ++ [(k, v)].
Proof.
  unfold dict_keys. induction d as [|[k' v'] d IH]; csimpl; [done|].
  intros Hnin. rewrite not_elem_of_cons in Hnin. destruct Hnin as [Hne Hnin].
  rewrite decide_False by done. by rewrite IH.
Qed.

Lemma dict_rename_snoc f d acc k v :
  dict_rename f (d ++ [(k, v)]) acc = dict_set (dict_rename f d acc) (f k) v.
Proof. unfold dict_rename. by rewrite foldl_app. Qed.

(** Nothing but renamed entries of the old mapping is in the new one. *)
Lemma dict_rename_elem_of f d kv :
  kv ∈ dict_rename f d [] → ∃ label, (label, kv.2) ∈ d ∧ kv.1 = f label.
Proof.
  induction d as [|[k v] d IH] using rev_ind.
  - by intros ?%elem_of_nil.
  - rewrite dict_rename_snoc.
    intros [Hin| ->]%dict_set_elem_of.
    + destruct (IH Hin) as (label & ? & ?). exists label.
      split; [apply elem_of_app; by left | done].
    + exists k. split; [|done].
      apply elem_of_app. right. by apply list_elem_of_singleton.
Qed.

(** Every old label has its renamed key in the new mapping. *)
Lemma dict_rename_key f d label target :
  (label, target) ∈ d → f label ∈ dict_keys (dict_rename f d []).
Proof.
  induction d as [|[k v] d IH] using rev_ind.
  - by intros ?%elem_of_nil.
  - rewrite dict_rename_snoc.
    intros [Hin|Heq%list_elem_of_singleton]%elem_of_app.
    + by apply dict_set_key_mono, IH.
    + injection Heq as -> ->. apply dict_set_key_elem_of.
Qed.

(** Without two labels renamed alike the new mapping is the old one,
    entry by entry. *)
Lemma dict_rename_inj f d :
  NoDup (f <$> dict_keys d) →
  dict_rename f d [] = (λ rc, (f rc.1, rc.2)) <$> d.
Proof.
  induction d as [|[k v] d IH] using rev_ind; [done|].
  unfold dict_keys. rewrite !fmap_app, dict_rename_snoc. simpl.
  intros [Hnd [Hdisj _]]%NoDup_app.
  rewrite IH by done. apply dict_set_fresh.
  intros Hin. apply (Hdisj (f k)); [|by left].
  unfold dict_keys in Hin. rewrite <- list_fmap_compose in Hin.
  by rewrite <- list_fmap_compose.
Qed.

Lemma intents_loop_intents responses intents r2i :
  (StoryTree.intents_loop responses intents r2i).1
  = intents ++ (intent_of <$> filter (λ r, r ∉ reserved) responses).
Proof.
  revert intents r2i. induction responses as [|r responses IH];
    intros intents r2i; simpl.
  - by rewrite app_nil_r.
  - rewrite filter_cons. destruct (decide (r ∈ reserved)) as [Hres|Hres].
    + rewrite decide_False by auto. apply IH.
    + rewrite decide_True by done. rewrite IH, <- app_assoc. done.
Qed.

Lemma intents_loop_lookup responses intents r2i r :
  (StoryTree.intents_loop responses intents r2i).2 !! r
  = if decide (r ∈ responses ∧ r ∉ reserved)
    then Some ("#" +:+ safe_response r)
    else r2i !! r.
Proof.
  revert intents r2i. induction responses as [|r' responses IH];
    intros intents r2i; simpl.
  - done.
  - destruct (decide (r' ∈ reserved)) as [Hres|Hres]; rewrite IH.
    + destruct (decide (r ∈ responses ∧ r ∉ reserved)) as [[Hin Hnr]|Hn].
      * rewrite decide_True; [done|]. split; [by right | done].
      * rewrite decide_False; [done|].
        intros [[->|Hin]%elem_of_cons Hnr]; [done | by apply Hn].
    + destruct (decide (r ∈ responses ∧ r ∉ reserved)) as [[Hin Hnr]|Hn].
      * rewrite decide_True; [done|]. split; [by right | done].
      * rewrite lookup_insert. case_decide as Heq.
        -- subst r'. rewrite decide_True; [done|]. split; [by left | done].
        -- rewrite decide_False; [done|].
           intros [[->|Hin]%elem_of_cons Hnr]; [done | by apply Hn].
Qed.

Lemma rewrite_loop_ok r2i items acc :
  (∀ r t, (r, t) ∈ items → r ∉ reserved →
          r2i !! r = Some ("#" +:+ safe_response r)) →
  StoryTree.rewrite_loop r2i items acc = Ok (dict_rename intent_ref items acc).
Proof.
  revert acc. induction items as [|[r t] items IH]; intros acc Hcover; simpl.
  - done.
  - assert (∀ r t, (r, t) ∈ items → r ∉ reserved →
                   r2i !! r = Some ("#" +:+ safe_response r)) as Hcover'
      by (intros; apply Hcover with t0; [by right | done]).
    unfold dict_rename. simpl. unfold intent_ref at 2.
    destruct (decide (r ∈ reserved)) as [Hres|Hres].
    + by apply IH.
    + rewrite (Hcover r t) by (done || by left). by apply IH.
Qed.

Lemma mapM_ok {A B} (f : A → result B) (g : A → B) l :
  (∀ a, a ∈ l → f a = Ok (g a)) → mapM f l = Ok (g <$> l).
Proof.
  induction l as [|a l IH]; intros Hf; simpl; [done|].
  rewrite (Hf a) by left. simpl.
  rewrite IH by (intros; apply Hf; by right). done.
Qed.

Lemma elem_of_collect_responses nodes r :
  r ∈ StoryTree.collect_responses nodes
  ↔ ∃ n t, n ∈ nodes ∧ (r, t) ∈ StoryNode.children n.
Proof.
  unfold StoryTree.collect_responses. rewrite list_elem_of_join. split.
  - intros (l & Hr & Hl). apply list_elem_of_fmap in Hl as (n & -> & Hn).
    unfold dict_keys in Hr. apply list_elem_of_fmap in Hr as ([r' t] & -> & Hrt).
    eauto.
  - intros (n & t & Hn & Hrt). exists (dict_keys (StoryNode.children n)). split.
    + unfold dict_keys. apply list_elem_of_fmap. by exists (r, t).
    + apply list_elem_of_fmap. eauto.
Qed.

(** With the voice map set, the first part of [export] returns: the
    intents of the distinct labels that are not reserved, in the order of
    [list_set], and every node with its mapping renamed. *)
Lemma extract_intents_ok re_sub list_set self voices :
  enumerates list_set →
  StoryTree.voices self = Some voices →
  StoryTree.extract_intents re_sub list_set self
  = Ok (intent_of <$> filter (λ r, r ∉ reserved)
                        (list_set (StoryTree.collect_responses (StoryTree.nodes self))),
        rewritten re_sub voices <$> StoryTree.nodes self).
Proof.
  intros Henum Hvoices. unfold StoryTree.extract_intents.
  set (responses := list_set _).
  pose proof (intents_loop_intents responses [] ∅) as Hint.
  pose proof (intents_loop_lookup responses [] ∅) as Hlook.
  destruct (StoryTree.intents_loop responses [] ∅) as [intents r2i].
  simpl in Hint, Hlook. subst intents.
  rewrite (mapM_ok _ (relabel re_sub voices)).
  - simpl. do 2 f_equal. by rewrite <- list_fmap_compose.
  - intros n1 Hn1. apply list_elem_of_fmap in Hn1 as (n & -> & Hn).
    unfold StoryTree.rewrite_node. rewrite rewrite_loop_ok.
    + simpl. rewrite Hvoices. done.
    + intros r t Hrt Hres. rewrite Hlook, decide_True; [done|].
      split; [|done]. apply Henum. apply elem_of_collect_responses. eauto.
Qed.

Lemma chars_replace_char old new s :
  chars (replace_char old new s)
  = (λ c, if decide (c = old) then new else c) <$> chars s.
Proof. induction s as [|c s IH]; simpl; [done|]. by rewrite IH. Qed.

Lemma chars_inj s1 s2 : chars s1 = chars s2 → s1 = s2.
Proof.
  revert s2. induction s1 as [|c s1 IH]; intros [|c2 s2]; simpl; try done.
  intros [= -> Hs]. f_equal. by apply IH.
Qed.

Lemma chars_safe_response r :
  chars (safe_response r)
  = (λ c, if decide (c = " "%char ∨ c = "'"%char) then "_"%char else c)
      <$> chars r.
Proof.
  unfold safe_response. rewrite !chars_replace_char, <- list_fmap_compose.
  apply list_fmap_ext. intros _ c _. simpl.
  destruct (decide (c = " "%char)) as [->|Hsp].
  - rewrite decide_False by done. by rewrite decide_True by (by left).
  - destruct (decide (c = "'"%char)) as [->|Hap].
    + by rewrite decide_True by (by right).
    + rewrite decide_False; [done|]. by intros [?|?].
Qed.

Lemma elem_of_reserved r :
  r ∈ reserved ↔ r = "conversation_start" ∨ r = "anything_else".
Proof.
  unfold reserved. rewrite !elem_of_cons, elem_of_nil. tauto.
Qed.

Lemma safe_response_idem r : safe_response (safe_response r) = safe_response r.
Proof.
  unfold safe_response. induction r as [|c r IH]; simpl; [done|].
  rewrite IH. f_equal.
  repeat (case_decide; subst; try done).
Qed.

Lemma safe_response_hash s : safe_response ("#" +:+ s) = "#" +:+ safe_response s.
Proof. reflexivity. Qed.

Lemma hash_not_reserved s : "#" +:+ s ∉ reserved.
Proof.
  unfold reserved. rewrite !not_elem_of_cons. repeat split; try done.
  apply not_elem_of_nil.
Qed.

Lemma intent_ref_reserved r : r ∈ reserved → intent_ref r = r.
Proof. intros. unfold intent_ref. by rewrite decide_True. Qed.

Lemma intent_ref_other r : r ∉ reserved → intent_ref r = "#" +:+ safe_response r.
Proof. intros. unfold intent_ref. by rewrite decide_False. Qed.

Lemma intent_of_inj r1 r2 : intent_of r1 = intent_of r2 → r1 = r2.
Proof. unfold intent_of, Intent.encode. simpl. by intros [= _ ->]. Qed.

Lemma rewritten_id re_sub voices n :
  StoryNode.id (rewritten re_sub voices n) = StoryNode.id n.
Proof. reflexivity. Qed.

Lemma rewritten_children re_sub voices n :
  StoryNode.children (rewritten re_sub voices n)
  = dict_rename intent_ref (StoryNode.children n) [].
Proof. reflexivity. Qed.

Lemma rewritten_ids re_sub voices (nodes : list StoryNode.t) :
  StoryNode.id <$> (rewritten re_sub voices <$> nodes) = StoryNode.id <$> nodes.
Proof. rewrite <- list_fmap_compose. by apply list_fmap_ext. Qed.

Lemma targets_exist_rewritten re_sub voices nodes :
  targets_exist nodes → targets_exist (rewritten re_sub voices <$> nodes).
Proof.
  unfold targets_exist. rewrite rewritten_ids, Forall_fmap.
  intros Hall. eapply Forall_impl; [exact Hall|]. intros n Hn.
  rewrite Forall_forall in Hn. apply Forall_forall. intros [k t] Hin.
  change ((k, t) ∈ dict_rename intent_ref (StoryNode.children n) []) in Hin.
  apply dict_rename_elem_of in Hin as (label & Hin & _).
  exact (Hn _ Hin).
Qed.

Lemma mapM_Forall2 {A B} (f : A → result B) l bs :
  mapM f l = Ok bs ↔ Forall2 (λ a b, f a = Ok b) l bs.
Proof.
  revert bs. induction l as [|a l IH]; intros bs; simpl.
  - split; [intros [= <-]; constructor | by inversion 1].
  - destruct (f a) as [b| |] eqn:Hfa; simpl.
    + destruct (mapM f l) as [bs'| |] eqn:Hl; simpl.
      * split.
        -- intros [= <-]. constructor; [done | by apply IH].
        -- inversion 1 as [|? b' ? bs'' Hb Hrest]; subst.
           rewrite Hfa in Hb. injection Hb as <-.
           apply IH in Hrest. by injection Hrest as <-.
      * split; [done|]. inversion 1 as [|? ? ? bs'' _ Hrest]; subst.
        by apply IH in Hrest.
      * split; [done|]. inversion 1 as [|? ? ? bs'' _ Hrest]; subst.
        by apply IH in Hrest.
    + split; [done|]. inversion 1; congruence.
    + split; [done|]. inversion 1; congruence.
Qed.

Lemma mapM_total {A B} (f : A → result B) l :
  (∀ a, a ∈ l → ∃ b, f a = Ok b) → ∃ bs, mapM f l = Ok bs.
Proof.
  induction l as [|a l IH]; intros Hf; simpl; [eauto|].
  destruct (Hf a ltac:(left)) as [b ->].
  destruct IH as [bs ->]; [intros; apply Hf; by right|]. simpl. eauto.
Qed.

(** Every node in the output is a node of the dictionary. *)
Lemma walk_nodes_in_store_mutual :
  (∀ self σ out σ', walk self σ out σ' →
     ∀ key, node_ref key ∈ out → is_Some (σ' !! key))
  ∧ (∀ self items prev σ produced σ',
       walk_loop self items prev σ produced σ' →
       ∀ key, node_ref key ∈ produced → is_Some (σ' !! key)).
Proof.
  apply walk_mutind.
  - intros self σ this produced σ' Hself Hloop IH key
      [[= ->]|Hin]%elem_of_cons; [|auto].
    apply (extends_is_Some _ _ self (walk_loop_extends _ _ _ _ _ _ Hloop)).
    eauto.
  - intros self prev σ key Hin. by apply elem_of_nil in Hin.
  - intros self response target items prev σ child sub σ1 rest σ'
      Hchild Hparent _ Hsub IHsub Hrest IHrest key
      [Hin|Hin]%elem_of_app; [|auto].
    apply (extends_is_Some _ _ key (walk_loop_extends _ _ _ _ _ _ Hrest)).
    auto.
  - intros self response target items prev σ child rest σ' _ _ _ IH key
      [[=]|Hin]%elem_of_cons. auto.
Qed.

Lemma walk_nodes_in_store self σ out σ' key :
  walk self σ out σ' → node_ref key ∈ out → is_Some (σ' !! key).
Proof.
  intros Hwalk Hin. exact (proj1 walk_nodes_in_store_mutual _ _ _ _ Hwalk _ Hin).
Qed.

(** ** The whole of [export] *)

Lemma export_unfold re_sub list_set fuel self voices first rest :
  enumerates list_set →
  StoryTree.voices self = Some voices →
  StoryTree.nodes self = first :: rest →
  StoryTree.export re_sub list_set fuel self
  = '(tree0, σ') ← tree fuel (StoryNode.id first)
                         (story_nodes_of re_sub voices (StoryTree.nodes self));
    '(tree1, σ'') ← StoryTree.set_start tree0 σ';
    dialog_nodes ← mapM (Encode.encode σ'') tree1;
    Ok {| intents :=
            intent_of <$> filter (λ r, r ∉ reserved)
              (list_set (StoryTree.collect_responses (StoryTree.nodes self)));
          dialog_nodes := dialog_nodes |}.
Proof.
  intros Henum Hvoices Hnodes. unfold StoryTree.export.
  rewrite (extract_intents_ok _ _ _ voices Henum Hvoices).
  unfold story_nodes_of. rewrite Hnodes. reflexivity.
Qed.

Lemma export_returns re_sub list_set fuel self voices first rest :
  enumerates list_set →
  StoryTree.voices self = Some voices →
  StoryTree.nodes self = first :: rest →
  targets_exist (StoryTree.nodes self) →
  length (StoryTree.nodes self) < fuel →
  ∃ produced σ' dns,
    tree fuel (StoryNode.id first)
         (story_nodes_of re_sub voices (StoryTree.nodes self))
    = Ok (node_ref (StoryNode.id first) :: produced, σ')
    ∧ StoryTree.export re_sub list_set fuel self
      = Ok {| intents :=
                intent_of <$> filter (λ r, r ∉ reserved)
                  (list_set (StoryTree.collect_responses (StoryTree.nodes self)));
              dialog_nodes := dns |}
    ∧ Forall2 (λ o j, Encode.encode (started (StoryNode.id first) σ') o = Ok j)
              (node_ref (StoryNode.id first) :: produced) dns.
Proof.
  intros Henum Hvoices Hnodes Hall Hfuel.
  rewrite (export_unfold _ _ _ _ voices first rest) by done.
  destruct (tree_returns
              (StoryTree.store_of_nodes
                 (rewritten re_sub voices <$> StoryTree.nodes self))
              (StoryNode.id first)) as (out & σ' & Hrun).
  { by apply targets_exist_closed, targets_exist_rewritten. }
  { apply store_of_nodes_is_Some. rewrite rewritten_ids, Hnodes. left. }
  specialize (Hrun fuel).
  pose proof (store_of_nodes_size
                (rewritten re_sub voices <$> StoryTree.nodes self)) as Hsize.
  rewrite length_fmap in Hsize. specialize (Hrun ltac:(lia)).
  unfold story_nodes_of. rewrite Hrun.
  pose proof (tree_walk _ _ _ _ _ Hrun) as Hwalk.
  inversion Hwalk as [? ? this produced ? Hself Hloop]; subst.
  destruct (mapM_total (Encode.encode (started (StoryNode.id first) σ'))
              (node_ref (StoryNode.id first) :: produced)) as [dns Hdns].
  { intros [key|s t c p] Hin; simpl; [|eauto].
    destruct (walk_nodes_in_store _ _ _ _ key Hwalk Hin) as [n Hn].
    unfold started. rewrite lookup_alter.
    case_decide; subst; rewrite Hn; simpl; eauto. }
  exists produced, σ', dns. split; [done|]. split.
  - unfold StoryTree.set_start. cbn [mbind result_bind].
    fold (started (StoryNode.id first) σ'). by rewrite Hdns.
  - by apply mapM_Forall2.
Qed.

(** C4. With the voice map set and every choice leading to a node of the
    list, [export] of a list that starts with [first] returns a document
    whose first record is the content record of [first] (its id as
    [dialog_node] and [title], its text as [output], no jump) with
    condition ["conversation_start"], whatever the choices of [first]. *)
Theorem root_framing re_sub list_set fuel self voices first rest :
  enumerates list_set →
  StoryTree.voices self = Some voices →
  StoryTree.nodes self = first :: rest →
  targets_exist (StoryTree.nodes self) →
  length (StoryTree.nodes self) < fuel →
  ∃ doc record records text,
    StoryTree.export re_sub list_set fuel self = Ok doc
    ∧ dialog_nodes doc = record :: records
    ∧ dialog_node record = StoryNode.id first
    ∧ title record = StoryNode.id first
    ∧ output record = Some text
    ∧ next_step record = None
    ∧ conditions record = Some "conversation_start".
Proof.
  intros Henum Hvoices Hnodes Hall Hfuel.
  destruct (export_returns re_sub list_set fuel self voices first rest)
    as (produced & σ' & dns & Hrun & Hexport & Hdns); try done.
  inversion Hdns as [|o record os records Hrecord Hrecords]; subst.
  simpl in Hrecord. unfold started in Hrecord.
  rewrite lookup_alter, decide_True in Hrecord by done.
  pose proof (tree_walk _ _ _ _ _ Hrun) as Hwalk.
  destruct (walk_nodes_in_store _ _ _ _ (StoryNode.id first) Hwalk) as [n Hn];
    [left|].
  rewrite Hn in Hrecord. simpl in Hrecord. injection Hrecord as <-.
  assert (StoryNode.id n = StoryNode.id first) as Hid.
  { eapply extends_keyed; [by eapply walk_extends | | exact Hn].
    apply store_of_nodes_keyed. }
  eexists _, _, records, _. split; [exact Hexport|]. simpl.
  repeat split; done.
Qed.

Lemma enumerates_remove_dups : enumerates remove_dups.
Proof.
  intros l. split; [apply NoDup_remove_dups | intros x; apply elem_of_remove_dups].
Qed.

Lemma root_framing_witness :
  enumerates remove_dups
  ∧ StoryTree.voices Scenario.story = Some []
  ∧ StoryTree.nodes Scenario.story = Scenario.A :: [Scenario.B; Scenario.C]
  ∧ targets_exist (StoryTree.nodes Scenario.story)
  ∧ length (StoryTree.nodes Scenario.story) < 4
  ∧ ∃ doc record records text,
      StoryTree.export no_match remove_dups 4 Scenario.story = Ok doc
      ∧ dialog_nodes doc = record :: records
      ∧ dialog_node record = StoryNode.id Scenario.A
      ∧ title record = StoryNode.id Scenario.A
      ∧ output record = Some text
      ∧ next_step record = None
      ∧ conditions record = Some "conversation_start".
Proof.
  assert (targets_exist (StoryTree.nodes Scenario.story)) as Hall by by_compute.
  assert (length (StoryTree.nodes Scenario.story) < 4) as Hfuel by (simpl; lia).
  split; [exact enumerates_remove_dups|].
  split; [reflexivity|]. split; [reflexivity|].
  split; [exact Hall|]. split; [exact Hfuel|].
  exact (root_framing no_match remove_dups 4 Scenario.story []
           Scenario.A [Scenario.B; Scenario.C]
           enumerates_remove_dups eq_refl eq_refl Hall Hfuel).
Defined.

(** *** The scenario, evaluated *)

Lemma scenario_export re_sub list_set fuel :
  enumerates list_set →
  3 < fuel →
  StoryTree.export re_sub list_set fuel Scenario.story
  = Ok {| intents :=
            intent_of <$> filter (λ r, r ∉ reserved)
                            (list_set ["go left"; "go right"; "back"]);
          dialog_nodes := Expected.records |}.
Proof.
  intros Henum Hfuel.
  rewrite (export_unfold _ _ _ _ [] Scenario.A [Scenario.B; Scenario.C]) by done.
  rewrite (tree_budget_mono 4 fuel) by (done || lia).
  set (found := intent_of <$> _).
  vm_compute. reflexivity.
Qed.

Lemma scenario_intents list_set i :
  enumerates list_set →
  i ∈ intent_of <$> filter (λ r, r ∉ reserved)
                      (list_set ["go left"; "go right"; "back"])
  ↔ i ∈ Expected.intents.
Proof.
  intros Henum. rewrite list_elem_of_fmap. setoid_rewrite list_elem_of_filter.
  destruct (Henum ["go left"; "go right"; "back"]) as [_ Hin].
  setoid_rewrite Hin. unfold Expected.intents. split.
  - intros (r & -> & _ & Hr). by apply (list_elem_of_fmap_2 intent_of) in Hr.
  - intros Hi. change (i ∈ intent_of <$> ["go left"; "go right"; "back"]) in Hi.
    apply list_elem_of_fmap in Hi as (r & -> & Hr). exists r.
    split; [done|]. split; [|done].
    repeat (apply elem_of_cons in Hr as [->|Hr]; [by_compute|]).
    by apply elem_of_nil in Hr.
Qed.

(** C2. On the scenario [export] returns, with every budget above 3, a
    document of six records, not four: [A], [B] under [A], then [A] once
    more (the choice "back" finds [A] without a parent and places it under
    [B]), a jump [A-B], [C] under [A] and a jump [A-C].  The intents are
    those of "go left", "go right" and "back". *)
Theorem scenario_six_records re_sub list_set fuel :
  enumerates list_set →
  3 < fuel →
  ∃ doc,
    StoryTree.export re_sub list_set fuel Scenario.story = Ok doc
    ∧ dialog_nodes doc = Expected.records
    ∧ length (dialog_nodes doc) = 6
    ∧ ∀ i, i ∈ intents doc ↔ i ∈ Expected.intents.
Proof.
  intros Henum Hfuel. eexists. split; [by apply scenario_export|].
  simpl. split; [done|]. split; [done|].
  intros i. by apply scenario_intents.
Qed.

Lemma scenario_six_records_witness :
  enumerates remove_dups ∧ 3 < 4
  ∧ ∃ doc,
      StoryTree.export no_match remove_dups 4 Scenario.story = Ok doc
      ∧ dialog_nodes doc = Expected.records
      ∧ length (dialog_nodes doc) = 6
      ∧ ∀ i, i ∈ intents doc ↔ i ∈ Expected.intents.
Proof.
  assert (3 < 4) as Hfuel by lia.
  split; [exact enumerates_remove_dups|]. split; [exact Hfuel|].
  exact (scenario_six_records no_match remove_dups 4 enumerates_remove_dups Hfuel).
Defined.

(** C1. On the scenario the document holds two content records for the
    root [A]: the root has no parent when the choice "back" of [B] reaches
    it, so it is placed a second time. *)
Theorem scenario_root_placed_twice re_sub list_set fuel :
  enumerates list_set →
  3 < fuel →
  ∃ doc,
    StoryTree.export re_sub list_set fuel Scenario.story = Ok doc
    ∧ length (filter (is_content_of "A") (dialog_nodes doc)) = 2.
Proof.
  intros Henum Hfuel. eexists. split; [by apply scenario_export|].
  reflexivity.
Qed.

Lemma scenario_root_placed_twice_witness :
  enumerates remove_dups ∧ 3 < 4
  ∧ ∃ doc,
      StoryTree.export no_match remove_dups 4 Scenario.story = Ok doc
      ∧ length (filter (is_content_of "A") (dialog_nodes doc)) = 2.
Proof.
  assert (3 < 4) as Hfuel by lia.
  split; [exact enumerates_remove_dups|]. split; [exact Hfuel|].
  exact (scenario_root_placed_twice no_match remove_dups 4
           enumerates_remove_dups Hfuel).
Defined.

(** ** Pointers *)


(** Three choices of [X] to [Y]: the node, then two pointers that share
    the id "X-Y". *)
Example repeat_edges_share_id :
  ∃ out σ',
    tree 3 "X" (StoryTree.store_of_nodes Repeat.nodes) = Ok (out, σ')
    ∧ out = [ node_ref "X"; node_ref "Y";
              pointer_ref "X" "Y" "pull" (Some (node_ref "Y"));
              pointer_ref "X" "Y" "kick"
                (Some (pointer_ref "X" "Y" "pull" (Some (node_ref "Y")))) ]
    ∧ ref_id <$> out = ["X"; "Y"; "X-Y"; "X-Y"].
Proof. eexists _, _. split; [vm_compute; reflexivity|]. split; reflexivity. Qed.

(** ** Placement: once, but for the root *)

Lemma node_keys_app out1 out2 :
  node_keys (out1 ++ out2) = node_keys out1 ++ node_keys out2.
Proof. apply omap_app. Qed.

Lemma elem_of_node_keys key out : key ∈ node_keys out ↔ node_ref key ∈ out.
Proof.
  unfold node_keys. rewrite list_elem_of_omap. split.
  - intros ([k|s t c p] & Hin & [= <-]). done.
  - intros Hin. by exists (node_ref key).
Qed.

(** What a walk appends after its own node are nodes that had no parent
    before and have one after, each of them once. *)
Lemma walk_places_once_mutual :
  (∀ self σ out σ', walk self σ out σ' →
     ∃ produced, out = node_ref self :: produced
       ∧ NoDup (node_keys produced)
       ∧ ∀ key, key ∈ node_keys produced → ¬ placed σ key ∧ placed σ' key)
  ∧ (∀ self items prev σ produced σ',
       walk_loop self items prev σ produced σ' →
       NoDup (node_keys produced)
       ∧ ∀ key, key ∈ node_keys produced → ¬ placed σ key ∧ placed σ' key).
Proof.
  apply walk_mutind.
  - intros self σ this produced σ' _ _ IH. by exists produced.
  - intros self prev σ. split; [constructor|].
    intros key Hin. by apply elem_of_nil in Hin.
  - intros self response target items prev σ child sub σ1 rest σ'
      Hchild Hparent _ Hsub (produced & -> & Hnodup1 & Hnew1)
      Hrest [Hnodup2 Hnew2].
    pose proof (extends_place σ self prev response target child Hchild Hparent)
      as Hext0.
    pose proof (walk_extends _ _ _ _ Hsub) as Hext1.
    pose proof (walk_loop_extends _ _ _ _ _ _ Hrest) as Hext2.
    assert (placed (<[target := place_child self prev response child]> σ) target)
      as Htarget.
    { eexists. rewrite lookup_insert_eq, place_child_parent. done. }
    assert (¬ placed σ target) as Hfree.
    { intros (n & Hn & Hp). congruence. }
    rewrite node_keys_app. simpl. split.
    + apply NoDup_cons. split.
      * intros [Hin|Hin]%elem_of_app.
        -- by apply Hnew1 in Hin as [? _].
        -- apply Hnew2 in Hin as [Hnot _]. apply Hnot.
           by apply (extends_placed _ _ target Hext1).
      * apply NoDup_app. split; [done|]. split; [|done].
        intros key Hin1 Hin2. apply Hnew2 in Hin2 as [Hnot _].
        by apply Hnew1 in Hin1 as [_ ?].
    + intros key [->|[Hin|Hin]%elem_of_app]%elem_of_cons.
      * split; [done|].
        by apply (extends_placed _ _ target (extends_trans _ _ _ Hext1 Hext2)).
      * apply Hnew1 in Hin as [Hnot Hplaced]. split.
        -- intros Hp. apply Hnot. by apply (extends_placed _ _ key Hext0).
        -- by apply (extends_placed _ _ key Hext2).
      * apply Hnew2 in Hin as [Hnot Hplaced]. split; [|done].
        intros Hp. apply Hnot.
        by apply (extends_placed _ _ key (extends_trans _ _ _ Hext0 Hext1)).
  - intros self response target items prev σ child rest σ' _ _ _ IH. done.
Qed.

(** After its first element, the node it is called on, the output of
    [tree] holds every node at most once; the root can be among them (it
    has no parent when the walk starts). *)
Lemma tree_places_once fuel root σ out σ' :
  tree fuel root σ = Ok (out, σ') →
  ∃ produced, out = node_ref root :: produced ∧ NoDup (node_keys produced).
Proof.
  intros Hrun. apply tree_walk in Hrun.
  destruct (proj1 walk_places_once_mutual _ _ _ _ Hrun)
    as (produced & -> & Hnodup & _).
  by exists produced.
Qed.

(** ** Intents *)

#[global] Instance intent_of_Inj : Inj (=) (=) intent_of.
Proof. intros r1 r2. apply intent_of_inj. Qed.

(** C6. With the voice map set, intent extraction returns
    - a list of intents without repetition that holds exactly, for every
      label that occurs among the choices of some node and is neither
      "conversation_start" nor "anything_else", the intent whose id is the
      label with every space and every apostrophe replaced by an underscore
      and whose only example is the label; no intent stems from one of the
      two reserved labels;
    - for every node a node of the same id whose mapping has, for each old
      label, the key [intent_ref label] and no other key, each entry
      keeping a target of such a label; where no two labels of the node get
      the same key the new mapping is the old one entry by entry;
    - where [intent_ref label] is the label itself for the two reserved
      labels, and for every other label "#" followed by the label with
      every space and every apostrophe replaced by an underscore. *)
Theorem intent_extraction re_sub list_set self voices :
  enumerates list_set →
  StoryTree.voices self = Some voices →
  ∃ found nodes2,
    StoryTree.extract_intents re_sub list_set self = Ok (found, nodes2)
    ∧ NoDup found
    ∧ (∀ i, i ∈ found ↔
         (∃ label, label ∈ StoryTree.collect_responses (StoryTree.nodes self)
                   ∧ label ≠ "conversation_start"
                   ∧ label ≠ "anything_else"
                   ∧ chars (Intent.intent i)
                     = (λ c, if decide (c = " "%char ∨ c = "'"%char)
                             then "_"%char else c) <$> chars label
                   ∧ Intent.examples_text i = [label]))
    ∧ Forall2
        (λ n n2,
           StoryNode.id n2 = StoryNode.id n
           ∧ (∀ label target,
                (label, target) ∈ StoryNode.children n →
                intent_ref label ∈ dict_keys (StoryNode.children n2))
           ∧ (∀ key target,
                (key, target) ∈ StoryNode.children n2 →
                ∃ label, (label, target) ∈ StoryNode.children n
                         ∧ key = intent_ref label)
           ∧ (NoDup (intent_ref <$> dict_keys (StoryNode.children n)) →
              StoryNode.children n2
              = (λ rc, (intent_ref rc.1, rc.2)) <$> StoryNode.children n))
        (StoryTree.nodes self) nodes2
    ∧ (∀ label, label = "conversation_start" ∨ label = "anything_else" →
                intent_ref label = label)
    ∧ (∀ label, label ≠ "conversation_start" → label ≠ "anything_else" →
         ∃ s, intent_ref label = "#" +:+ s
              ∧ chars s
                = (λ c, if decide (c = " "%char ∨ c = "'"%char)
                        then "_"%char else c) <$> chars label).
Proof.
  intros Henum Hvoices.
  eexists _, _. split; [by apply extract_intents_ok|].
  split; [|split; [|split; [|split]]].
  - apply (NoDup_fmap_2 intent_of), NoDup_filter, Henum.
  - intros i. rewrite list_elem_of_fmap. setoid_rewrite list_elem_of_filter.
    destruct (Henum (StoryTree.collect_responses (StoryTree.nodes self)))
      as [_ Hin].
    setoid_rewrite Hin. setoid_rewrite elem_of_reserved. split.
    + intros (label & -> & Hres & Hlabel). exists label.
      split; [done|]. split; [tauto|]. split; [tauto|].
      split; [apply chars_safe_response | done].
    + intros (label & Hlabel & Hstart & Helse & Hid & Hex). exists label.
      split; [|split; [tauto | done]].
      destruct i as [id examples]. simpl in Hid, Hex. subst examples.
      unfold intent_of, Intent.encode. simpl. f_equal.
      apply chars_inj. by rewrite chars_safe_response.
  - apply Forall2_fmap_r, Forall_Forall2_diag, Forall_forall.
    intros n _. split; [done|]. split; [|split].
    + intros label target. apply dict_rename_key.
    + intros key target Hin.
      by apply (dict_rename_elem_of intent_ref _ (key, target)) in Hin.
    + apply dict_rename_inj.
  - intros label Hres. by apply intent_ref_reserved, elem_of_reserved.
  - intros label Hstart Helse. exists (safe_response label).
    split; [|apply chars_safe_response].
    apply intent_ref_other. rewrite elem_of_reserved. tauto.
Qed.

Lemma intent_extraction_witness :
  enumerates remove_dups
  ∧ StoryTree.voices Scenario.story = Some []
  ∧ ∃ found nodes2,
      StoryTree.extract_intents no_match remove_dups Scenario.story
      = Ok (found, nodes2)
      ∧ NoDup found
      ∧ (∀ i, i ∈ found ↔
           (∃ label, label ∈ StoryTree.collect_responses
                               (StoryTree.nodes Scenario.story)
                     ∧ label ≠ "conversation_start"
                     ∧ label ≠ "anything_else"
                     ∧ chars (Intent.intent i)
                       = (λ c, if decide (c = " "%char ∨ c = "'"%char)
                               then "_"%char else c) <$> chars label
                     ∧ Intent.examples_text i = [label]))
      ∧ Forall2
          (λ n n2,
             StoryNode.id n2 = StoryNode.id n
             ∧ (∀ label target,
                  (label, target) ∈ StoryNode.children n →
                  intent_ref label ∈ dict_keys (StoryNode.children n2))
             ∧ (∀ key target,
                  (key, target) ∈ StoryNode.children n2 →
                  ∃ label, (label, target) ∈ StoryNode.children n
                           ∧ key = intent_ref label)
             ∧ (NoDup (intent_ref <$> dict_keys (StoryNode.children n)) →
                StoryNode.children n2
                = (λ rc, (intent_ref rc.1, rc.2)) <$> StoryNode.children n))
          (StoryTree.nodes Scenario.story) nodes2
      ∧ (∀ label, label = "conversation_start" ∨ label = "anything_else" →
                  intent_ref label = label)
      ∧ (∀ label, label ≠ "conversation_start" → label ≠ "anything_else" →
           ∃ s, intent_ref label = "#" +:+ s
                ∧ chars s
                  = (λ c, if decide (c = " "%char ∨ c = "'"%char)
                          then "_"%char else c) <$> chars label).
Proof.
  split; [exact enumerates_remove_dups|]. split; [reflexivity|].
  exact (intent_extraction no_match remove_dups Scenario.story []
           enumerates_remove_dups eq_refl).
Defined.

Lemma elem_of_collect_rewritten re_sub voices (nodes : list StoryNode.t) r2 :
  r2 ∈ StoryTree.collect_responses (rewritten re_sub voices <$> nodes)
  ↔ ∃ label, label ∈ StoryTree.collect_responses nodes ∧ r2 = intent_ref label.
Proof.
  rewrite elem_of_collect_responses. setoid_rewrite elem_of_collect_responses.
  split.
  - intros (n2 & t & Hn2 & Hin).
    apply list_elem_of_fmap in Hn2 as (n & -> & Hn).
    rewrite rewritten_children in Hin.
    apply (dict_rename_elem_of intent_ref _ (r2, t)) in Hin
      as (label & Hin & Heq).
    simpl in Hin, Heq. subst r2. exists label. split; [|done]. by exists n, t.
  - intros (label & (n & t & Hn & Hin) & ->).
    pose proof (dict_rename_key intent_ref _ _ _ Hin) as Hkey.
    unfold dict_keys in Hkey.
    apply list_elem_of_fmap in Hkey as ([k t'] & Hk & Hkt). simpl in Hk. subst k.
    exists (rewritten re_sub voices n), t'.
    split; [by apply list_elem_of_fmap_2 | by rewrite rewritten_children].
Qed.

(** A set of intents that is its own image under wrapping is empty: the
    id of a wrapped intent is one character longer. *)
Lemma wrapped_set_differs (found found2 : list Intent.json) :
  (∀ i, i ∈ found2 ↔
     (∃ i1, i1 ∈ found
            ∧ i = Intent.mk_json ("#" +:+ Intent.intent i1)
                                 ["#" +:+ Intent.intent i1])) →
  (∀ i, i ∈ found2 ↔ i ∈ found) ↔ found = [].
Proof.
  intros Hwrap. split.
  - intros Hsame.
    assert (∀ n i, i ∈ found → String.length (Intent.intent i) ≠ n) as Hnone.
    { induction n as [n IH] using lt_wf_ind. intros i Hi Hlen.
      apply Hsame, Hwrap in Hi as (i1 & Hi1 & ->).
      apply (IH (String.length (Intent.intent i1))) with i1; [|done..].
      subst n.
      change (String.length (Intent.intent i1)
              < S (String.length (Intent.intent i1))).
      lia. }
    destruct found as [|i found]; [done|].
    exfalso. apply (Hnone (String.length (Intent.intent i)) i); [left | done].
  - intros -> i. rewrite Hwrap. split.
    + by intros (i1 & ?%elem_of_nil & _).
    + by intros ?%elem_of_nil.
Qed.

(** C7, as the code has it.  Extraction run again on the nodes it has
    rewritten returns, for each intent [s] of the first run, the intent
    with id ["#s"] and the single example ["#s"], and nothing else: every
    rewritten label is wrapped into a new intent once more.  So the second
    run returns the intent set of the first only when the first run found
    no intent at all. *)
Theorem second_extraction_wraps re_sub list_set self voices found nodes2 :
  enumerates list_set →
  StoryTree.voices self = Some voices →
  StoryTree.extract_intents re_sub list_set self = Ok (found, nodes2) →
  ∃ found2 nodes3,
    StoryTree.extract_intents re_sub list_set (StoryTree.mk nodes2 (Some voices))
    = Ok (found2, nodes3)
    ∧ (∀ i, i ∈ found2 ↔
         (∃ i1, i1 ∈ found
                ∧ i = Intent.mk_json ("#" +:+ Intent.intent i1)
                                     ["#" +:+ Intent.intent i1]))
    ∧ ((∀ i, i ∈ found2 ↔ i ∈ found) ↔ found = []).
Proof.
  intros Henum Hvoices Hfirst.
  rewrite (extract_intents_ok _ _ _ voices Henum Hvoices) in Hfirst.
  injection Hfirst as <- <-.
  eexists _, _. split; [by apply extract_intents_ok|]. simpl.
  match goal with |- ?P ∧ _ => assert P as Hwrap end.
  { intros i. rewrite list_elem_of_fmap. setoid_rewrite list_elem_of_fmap.
    setoid_rewrite list_elem_of_filter.
    destruct (Henum (StoryTree.collect_responses (StoryTree.nodes self)))
      as [_ Hin1].
    destruct (Henum (StoryTree.collect_responses
                       (rewritten re_sub voices <$> StoryTree.nodes self)))
      as [_ Hin2].
    setoid_rewrite Hin1. setoid_rewrite Hin2.
    setoid_rewrite elem_of_collect_rewritten. split.
    - intros (r2 & -> & Hres2 & label & Hlabel & ->).
      destruct (decide (label ∈ reserved)) as [Hres|Hres].
      { by rewrite intent_ref_reserved in Hres2. }
      rewrite intent_ref_other by done.
      exists (intent_of label). split; [by exists label|].
      unfold intent_of, Intent.encode. simpl.
      by rewrite safe_response_hash, safe_response_idem.
    - intros (i1 & (label & -> & Hres & Hlabel) & ->).
      exists ("#" +:+ safe_response label). split.
      + unfold intent_of, Intent.encode. simpl.
        by rewrite safe_response_hash, safe_response_idem.
      + split; [apply hash_not_reserved|].
        exists label. split; [done|]. by rewrite intent_ref_other. }
  split; [exact Hwrap|]. by apply wrapped_set_differs.
Qed.

Lemma second_extraction_wraps_witness :
  enumerates remove_dups
  ∧ StoryTree.voices Scenario.story = Some []
  ∧ StoryTree.extract_intents no_match remove_dups Scenario.story
    = Ok (Expected.intents, rewritten no_match [] <$> Scenario.nodes)
  ∧ ∃ found2 nodes3,
      StoryTree.extract_intents no_match remove_dups
        (StoryTree.mk (rewritten no_match [] <$> Scenario.nodes) (Some []))
      = Ok (found2, nodes3)
      ∧ (∀ i, i ∈ found2 ↔
           (∃ i1, i1 ∈ Expected.intents
                  ∧ i = Intent.mk_json ("#" +:+ Intent.intent i1)
                                       ["#" +:+ Intent.intent i1]))
      ∧ ((∀ i, i ∈ found2 ↔ i ∈ Expected.intents) ↔ Expected.intents = []).
Proof.
  assert (StoryTree.extract_intents no_match remove_dups Scenario.story
          = Ok (Expected.intents, rewritten no_match [] <$> Scenario.nodes))
    as Hfirst by (vm_compute; reflexivity).
  split; [exact enumerates_remove_dups|]. split; [reflexivity|].
  split; [exact Hfirst|].
  exact (second_extraction_wraps no_match remove_dups Scenario.story []
           Expected.intents (rewritten no_match [] <$> Scenario.nodes)
           enumerates_remove_dups eq_refl Hfirst).
Defined.

(** On the scenario the second run does not return the intents of the
    first: "go_left" is an intent of the first run only. *)
Lemma second_extraction_differs :
  ∃ found nodes2 found2 nodes3,
    StoryTree.extract_intents no_match remove_dups Scenario.story
    = Ok (found, nodes2)
    ∧ StoryTree.extract_intents no_match remove_dups
        (StoryTree.mk nodes2 (StoryTree.voices Scenario.story))
      = Ok (found2, nodes3)
    ∧ ¬ (∀ i, i ∈ found2 ↔ i ∈ found).
Proof.
  eexists _, _, _, _. split; [vm_compute; reflexivity|].
  split; [vm_compute; reflexivity|].
  intros Hsame. specialize (Hsame (intent_of "go left")).
  assert (intent_of "go left"
            ∈ [intent_of "go left"; intent_of "go right"; intent_of "back"])
    as Hin by left.
  apply Hsame in Hin.
  refine (bool_decide_unpack (¬ _) _ Hin). vm_compute. exact I.
Qed.

(** ** Sibling order *)

Lemma extends_unlinked σ σ' : extends σ σ' → unlinked σ → unlinked σ'.
Proof.
  intros Hext Hun key n' Hn' Hparent.
  eapply Hun; [|exact Hparent]. by eapply extends_untouched.
Qed.

Lemma record_of_extends σ σ' self response target o :
  extends σ σ' → record_of σ self response target o →
  record_of σ' self response target o ∧ prev_of σ' o = prev_of σ o.
Proof.
  intros Hext. destruct o as [key|s t c p]; simpl; [|done].
  intros (-> & n & Hn & Hparent & Hcond).
  assert (σ' !! target = Some n) as Hn'
    by (eapply extends_frozen; eauto; congruence).
  split; [eauto|]. by rewrite Hn, Hn'.
Qed.

Lemma sibling_chain_extends σ σ' self items prev records :
  extends σ σ' → sibling_chain σ self items prev records →
  sibling_chain σ' self items prev records.
Proof.
  intros Hext. revert prev records.
  induction items as [|[response target] items IH]; intros prev [|o records];
    simpl; try done.
  intros (Hrec & Hprev & Hchain).
  destruct (record_of_extends _ _ _ _ _ _ Hext Hrec) as [Hrec' Hprev'].
  split; [done|]. split; [congruence | by apply IH].
Qed.

Lemma walk_head self σ out σ' :
  walk self σ out σ' → ∃ produced, out = node_ref self :: produced.
Proof. inversion 1; eauto. Qed.

Lemma chains_app σ σ' out1 out2 :
  extends σ σ' → chains σ out1 → chains σ' out2 → chains σ' (out1 ++ out2).
Proof.
  intros Hext H1 H2 key n' [Hin|Hin]%elem_of_app Hn'.
  - destruct (extends_lookup_inv _ _ _ _ Hext Hn') as (n & Hn & He).
    destruct (H1 key n Hin Hn) as (records & Hsub & Hchain).
    exists records. split; [by apply sublist_inserts_r|].
    destruct He as (_ & _ & -> & _). by eapply sibling_chain_extends.
  - destruct (H2 key n' Hin Hn') as (records & Hsub & Hchain).
    exists records. split; [by apply sublist_inserts_l | done].
Qed.

Lemma walk_chains_mutual :
  (∀ self σ out σ', walk self σ out σ' → unlinked σ → chains σ' out)
  ∧ (∀ self items prev σ produced σ',
       walk_loop self items prev σ produced σ' → unlinked σ →
       (∃ records, sublist records produced
                   ∧ sibling_chain σ' self items prev records)
       ∧ chains σ' produced).
Proof.
  apply walk_mutind.
  - intros self σ this produced σ' Hself Hloop IH Hun.
    destruct (IH Hun) as [(records & Hsub & Hchain) Hchains].
    intros key n' [[= ->]|Hin]%elem_of_cons Hn'.
    + exists records. split; [by apply sublist_cons|].
      pose proof (walk_loop_extends _ _ _ _ _ _ Hloop) as Hext.
      destruct (extends_lookup _ _ _ _ Hext Hself) as (n & Hn & He).
      rewrite Hn' in Hn. injection Hn as <-.
      destruct He as (_ & _ & -> & _). done.
    + destruct (Hchains key n' Hin Hn') as (records' & Hsub' & Hchain').
      exists records'. split; [by apply sublist_cons | done].
  - intros self prev σ Hun. split.
    + by exists [].
    + intros key n Hin. by apply elem_of_nil in Hin.
  - intros self response target items prev σ child sub σ1 rest σ'
      Hchild Hparent _ Hsub IHsub Hrest IHrest Hun.
    pose proof (extends_place σ self prev response target child Hchild Hparent)
      as Hext0.
    pose proof (walk_extends _ _ _ _ Hsub) as Hext1.
    pose proof (walk_loop_extends _ _ _ _ _ _ Hrest) as Hext2.
    assert (unlinked (<[target := place_child self prev response child]> σ))
      as Hun0 by (by eapply extends_unlinked).
    assert (unlinked σ1) as Hun1 by (by eapply extends_unlinked).
    specialize (IHsub Hun0).
    destruct (IHrest Hun1) as [(records & Hsublist & Hchain) Hchains].
    destruct (walk_head _ _ _ _ Hsub) as [produced ->].
    split; [|by eapply chains_app].
    exists (node_ref target :: records). split.
    + simpl. apply sublist_skip. by apply sublist_inserts_l.
    + simpl.
      assert (σ' !! target = Some (place_child self prev response child)) as Hn'.
      { eapply extends_frozen; [exact (extends_trans _ _ _ Hext1 Hext2)| |].
        - by rewrite lookup_insert_eq.
        - by rewrite place_child_parent. }
      split; [|split; [|done]].
      * split; [done|]. eexists. split; [exact Hn'|].
        by rewrite place_child_parent, place_child_conditions.
      * rewrite Hn'.
        exact (place_child_previous_sibling self prev response child
                 (Hun target child Hchild Hparent)).
  - intros self response target items prev σ child rest σ'
      Hchild Hparent Hrest IHrest Hun.
    destruct (IHrest Hun) as [(records & Hsublist & Hchain) Hchains].
    split.
    + exists (pointer_ref self target response prev :: records).
      split; [by apply sublist_skip | done].
    + intros key n [[=]|Hin]%elem_of_cons Hn.
      destruct (Hchains key n Hin Hn) as (records' & Hsub' & Hchain').
      exists records'. split; [by apply sublist_cons | done].
Qed.

Lemma fresh_unlinked nodes :
  Forall fresh nodes → unlinked (StoryTree.store_of_nodes nodes).
Proof.
  intros Hfresh key n Hn _. apply store_of_nodes_lookup in Hn as [Hn _].
  rewrite Forall_forall in Hfresh. by destruct (Hfresh n Hn) as (_ & ? & _).
Qed.

(** When [tree] returns on nodes as they are loaded, every node in
    its output has, as a subsequence of the output in the order of its
    choice mapping, one record per choice (the child placed
    under it with that choice as condition, or the pointer to the target
    with that condition); the record of the first choice has no previous
    sibling and the record of each further choice has the record of the
    choice before it as previous sibling.  A node that is walked twice has
    two such subsequences, as the root of the scenario has. *)
Lemma sibling_order nodes fuel root out σ' key n :
  Forall fresh nodes →
  tree fuel root (StoryTree.store_of_nodes nodes) = Ok (out, σ') →
  node_ref key ∈ out →
  StoryTree.store_of_nodes nodes !! key = Some n →
  ∃ records,
    sublist records out
    ∧ length records = length (StoryNode.children n)
    ∧ sibling_chain σ' key (StoryNode.children n) None records.
Proof.
  intros Hfresh Hrun Hin Hn.
  apply tree_walk in Hrun.
  pose proof (walk_extends _ _ _ _ Hrun) as Hext.
  destruct (extends_lookup _ _ _ _ Hext Hn) as (n' & Hn' & He).
  destruct (proj1 walk_chains_mutual _ _ _ _ Hrun (fresh_unlinked _ Hfresh)
              key n' Hin Hn') as (records & Hsub & Hchain).
  destruct He as (_ & _ & Hchildren & _). rewrite Hchildren in Hchain.
  exists records. split; [done|]. split; [|done].
  clear -Hchain. revert Hchain. generalize (@None ref).
  revert records. induction (StoryNode.children n) as [|[r t] items IH];
    intros [|o records] prev; simpl; try done.
  intros (_ & _ & Hchain). f_equal. eauto.
Qed.

Lemma sibling_order_witness :
  ∃ out σ',
    Forall fresh Scenario.nodes
    ∧ tree 4 "A" (StoryTree.store_of_nodes Scenario.nodes) = Ok (out, σ')
    ∧ node_ref "A" ∈ out
    ∧ StoryTree.store_of_nodes Scenario.nodes !! "A" = Some Scenario.A
    ∧ ∃ records,
        sublist records out
        ∧ length records = length (StoryNode.children Scenario.A)
        ∧ sibling_chain σ' "A" (StoryNode.children Scenario.A) None records.
Proof.
  assert (Forall fresh Scenario.nodes) as Hfresh
    by (repeat constructor).
  assert (∃ produced σ',
            tree 4 "A" (StoryTree.store_of_nodes Scenario.nodes)
            = Ok (node_ref "A" :: produced, σ')) as (produced & σ' & Hrun)
    by (eexists _, _; vm_compute; reflexivity).
  assert (StoryTree.store_of_nodes Scenario.nodes !! "A" = Some Scenario.A)
    as Hn by (vm_compute; reflexivity).
  assert (node_ref "A" ∈ node_ref "A" :: produced) as Hin by left.
  exists (node_ref "A" :: produced), σ'.
  split; [exact Hfresh|]. split; [exact Hrun|]. split; [exact Hin|].
  split; [exact Hn|].
  exact (sibling_order Scenario.nodes 4 "A" (node_ref "A" :: produced) σ' "A"
           Scenario.A Hfresh Hrun Hin Hn).
Defined.

(** C5. On the scenario the root [A] has the two choices "go left" and
    "go right", and the document holds four records under [A], two for
    each choice, since [A] is walked twice: [B] and the jump [A-B] for
    "go left", both without previous sibling, and [C] and the jump [A-C]
    for "go right", with [A-B] and [B] as previous siblings.  The records
    made for the choices of [A] are two chains that cross, not one chain
    in the order of the mapping. *)
Theorem scenario_root_two_chains re_sub list_set fuel :
  enumerates list_set →
  3 < fuel →
  ∃ doc,
    StoryTree.export re_sub list_set fuel Scenario.story = Ok doc
    ∧ dict_keys (StoryNode.children (rewritten re_sub [] Scenario.A))
      = ["#go_left"; "#go_right"]
    ∧ (λ r, (dialog_node r, conditions r, previous_sibling r))
        <$> filter (λ r, parent r = Some "A") (dialog_nodes doc)
      = [ ("B", Some "#go_left", None);
          ("A-B", Some "#go_left", None);
          ("C", Some "#go_right", Some "A-B");
          ("A-C", Some "#go_right", Some "B") ]
    ∧ length (filter (λ r, parent r = Some "A" ∧ previous_sibling r = None)
                     (dialog_nodes doc)) = 2.
Proof.
  intros Henum Hfuel. eexists. split; [by apply scenario_export|].
  split; [reflexivity|]. split; reflexivity.
Qed.

Lemma scenario_root_two_chains_witness :
  enumerates remove_dups ∧ 3 < 4
  ∧ ∃ doc,
      StoryTree.export no_match remove_dups 4 Scenario.story = Ok doc
      ∧ dict_keys (StoryNode.children (rewritten no_match [] Scenario.A))
        = ["#go_left"; "#go_right"]
      ∧ (λ r, (dialog_node r, conditions r, previous_sibling r))
          <$> filter (λ r, parent r = Some "A") (dialog_nodes doc)
        = [ ("B", Some "#go_left", None);
            ("A-B", Some "#go_left", None);
            ("C", Some "#go_right", Some "A-B");
            ("A-C", Some "#go_right", Some "B") ]
      ∧ length (filter (λ r, parent r = Some "A" ∧ previous_sibling r = None)
                       (dialog_nodes doc)) = 2.
Proof.
  assert (3 < 4) as Hfuel by lia.
  split; [exact enumerates_remove_dups|]. split; [exact Hfuel|].
  exact (scenario_root_two_chains no_match remove_dups 4
           enumerates_remove_dups Hfuel).
Defined.

(** ** Pointers stand for choices to nodes placed before *)

Lemma precedes_cons x y z l : precedes x y l → precedes x y (z :: l).
Proof.
  intros (before & after & -> & Hin). exists (z :: before), after.
  split; [done | by right].
Qed.

Lemma precedes_app_l x y l1 l2 : precedes x y l1 → precedes x y (l1 ++ l2).
Proof.
  intros (before & after & -> & Hin). exists before, (after ++ l2).
  split; [by rewrite <- app_assoc | done].
Qed.

Lemma precedes_app_r x y l1 l2 : precedes x y l2 → precedes x y (l1 ++ l2).
Proof.
  intros (before & after & -> & Hin). exists (l1 ++ before), after.
  split; [by rewrite <- app_assoc|]. apply elem_of_app. by right.
Qed.

Lemma precedes_across x y l1 l2 : x ∈ l1 → y ∈ l2 → precedes x y (l1 ++ l2).
Proof.
  intros Hx (before & after & ->)%list_elem_of_split.
  exists (l1 ++ before), after.
  split; [by rewrite <- app_assoc|]. apply elem_of_app. by left.
Qed.

Lemma choice_of_extends σ σ' source response target :
  extends σ σ' →
  choice_of σ source response target ↔ choice_of σ' source response target.
Proof.
  intros Hext. split; intros (n & Hn & Hin).
  - destruct (extends_lookup _ _ _ _ Hext Hn) as (n' & Hn' & He).
    exists n'. split; [done|]. destruct He as (_ & _ & -> & _). done.
  - destruct (extends_lookup_inv _ _ _ _ Hext Hn) as (n0 & Hn0 & He).
    exists n0. split; [done|]. destruct He as (_ & _ & <- & _). done.
Qed.

Lemma placed_insert_place σ self prev response target child key :
  σ !! target = Some child →
  placed (<[target := place_child self prev response child]> σ) key →
  key = target ∨ placed σ key.
Proof.
  intros Hchild (n & Hn & Hparent).
  destruct (decide (target = key)) as [<-|Hne]; [by left|].
  rewrite lookup_insert_ne in Hn by done. right. by exists n.
Qed.

(** A node that got its parent during a walk is in the output. *)
Lemma walk_placed_in_output_mutual :
  (∀ self σ out σ', walk self σ out σ' →
     ∀ key, placed σ' key → placed σ key ∨ node_ref key ∈ out)
  ∧ (∀ self items prev σ produced σ',
       walk_loop self items prev σ produced σ' →
       ∀ key, placed σ' key → placed σ key ∨ node_ref key ∈ produced).
Proof.
  apply walk_mutind.
  - intros self σ this produced σ' _ _ IH key Hplaced.
    destruct (IH key Hplaced); [by left | right; by right].
  - intros. by left.
  - intros self response target items prev σ child sub σ1 rest σ'
      Hchild Hparent _ Hsub IHsub _ IHrest key Hplaced.
    destruct (IHrest key Hplaced) as [Hplaced1|Hin].
    + destruct (IHsub key Hplaced1) as [Hplaced0|Hin].
      * apply placed_insert_place in Hplaced0 as [->|?]; [|by left|done].
        right. destruct (walk_head _ _ _ _ Hsub) as [produced ->].
        apply elem_of_app. left. left.
      * right. apply elem_of_app. by left.
    + right. apply elem_of_app. by right.
  - intros self response target items prev σ child rest σ' _ _ _ IH key Hplaced.
    destruct (IH key Hplaced); [by left | right; by right].
Qed.

Lemma walk_pointers_mutual :
  (∀ self σ out σ', walk self σ out σ' →
     ∀ s t c p, pointer_ref s t c p ∈ out →
       choice_of σ s c t
       ∧ (placed σ t ∨ precedes (node_ref t) (pointer_ref s t c p) out))
  ∧ (∀ self items prev σ produced σ',
       walk_loop self items prev σ produced σ' →
       ∀ s t c p, pointer_ref s t c p ∈ produced →
         ((s = self ∧ (c, t) ∈ items) ∨ choice_of σ s c t)
         ∧ (placed σ t
            ∨ precedes (node_ref t) (pointer_ref s t c p) produced)).
Proof.
  apply walk_mutind.
  - intros self σ this produced σ' Hself _ IH s t c p [[=]|Hin]%elem_of_cons.
    destruct (IH s t c p Hin) as [Hchoice Hbefore]. split.
    + destruct Hchoice as [[-> Hitem]|?]; [by exists this | done].
    + destruct Hbefore; [by left | right; by apply precedes_cons].
  - intros self prev σ s t c p Hin. by apply elem_of_nil in Hin.
  - intros self response target items prev σ child sub σ1 rest σ'
      Hchild Hparent _ Hsub IHsub Hrest IHrest s t c p [Hin|Hin]%elem_of_app.
    + pose proof (extends_place σ self prev response target child Hchild Hparent)
        as Hext0.
      destruct (IHsub s t c p Hin) as [Hchoice Hbefore]. split.
      * right. by apply (choice_of_extends _ _ s c t Hext0).
      * destruct Hbefore as [Hplaced|Hprec];
          [|right; by apply precedes_app_l].
        apply placed_insert_place in Hplaced as [->|?]; [|by left|done].
        right. apply precedes_app_l.
        destruct (walk_head _ _ _ _ Hsub) as [produced ->].
        apply elem_of_cons in Hin as [[=]|Hin].
        apply list_elem_of_split in Hin as (before & after & ->).
        exists (node_ref target :: before), after. split; [done | left].
    + pose proof (extends_place σ self prev response target child Hchild Hparent)
        as Hext0.
      pose proof (walk_extends _ _ _ _ Hsub) as Hext1.
      destruct (IHrest s t c p Hin) as [Hchoice Hbefore]. split.
      * destruct Hchoice as [[-> Hitem]|Hchoice]; [left; split; [done|by right]|].
        right. apply (choice_of_extends _ _ s c t (extends_trans _ _ _ Hext0 Hext1)).
        done.
      * destruct Hbefore as [Hplaced1|Hprec];
          [|right; by apply precedes_app_r].
        destruct (proj1 walk_placed_in_output_mutual _ _ _ _ Hsub t Hplaced1)
          as [Hplaced0|Hout].
        -- apply placed_insert_place in Hplaced0 as [->|?]; [|by left|done].
           right. apply precedes_across; [|done].
           destruct (walk_head _ _ _ _ Hsub) as [produced ->]. left.
        -- right. by apply precedes_across.
  - intros self response target items prev σ child rest σ'
      Hchild Hparent _ IH s t c p [Heq|Hin]%elem_of_cons.
    + injection Heq as -> -> -> ->. split.
      * left. split; [done | left].
      * left. by exists child.
    + destruct (IH s t c p Hin) as [Hchoice Hbefore]. split.
      * destruct Hchoice as [[-> Hitem]|?]; [left; split; [done|by right] | by right].
      * destruct Hbefore; [by left | right; by apply precedes_cons].
Qed.

(** The step of the loop for a choice whose target has a parent: one
    pointer is appended and the loop goes on with the dictionary as it
    is; [rec] is not called. *)
Lemma tree_loop_pointer rec self response target items prev nodes σ :
  placed σ target →
  tree_loop rec self ((response, target) :: items) prev nodes σ
  = tree_loop rec self items (Some (pointer_ref self target response prev))
              (nodes ++ [pointer_ref self target response prev]) σ.
Proof.
  intros (child & Hchild & Hparent). simpl. rewrite Hchild.
  destruct (StoryNode.parent child); [|done]. by rewrite make_pointer_eq.
Qed.

Lemma fresh_not_placed nodes key :
  Forall fresh nodes → ¬ placed (StoryTree.store_of_nodes nodes) key.
Proof.
  intros Hfresh (n & Hn & Hparent). apply store_of_nodes_lookup in Hn as [Hn _].
  rewrite Forall_forall in Hfresh. by destruct (Hfresh n Hn) as (? & _).
Qed.

(** When [tree] returns on nodes as they are loaded, every pointer in
    its output
    - stands for a choice of its source: the source has a choice with the
      pointer's condition as label, leading to the pointer's target;
    - comes after the node of its target in the output, and the jump of
      its record names the [dialog_node] of the record of that node;
    - has that label as the condition of its record and no text;
    - is all the loop makes of such a choice: when the target has a
      parent, the loop appends the pointer and goes on with the next
      choice, the dictionary unchanged and [tree] not entered.
    Whether a pointer is made is another matter: the loop makes one when
    the target has a parent, which the root has not when the first choice
    that leads back to it is processed. *)
Lemma pointer_correct nodes fuel root out σ' source target response prev :
  Forall fresh nodes →
  tree fuel root (StoryTree.store_of_nodes nodes) = Ok (out, σ') →
  pointer_ref source target response prev ∈ out →
  choice_of (StoryTree.store_of_nodes nodes) source response target
  ∧ precedes (node_ref target) (pointer_ref source target response prev) out
  ∧ (∃ record target_record,
       Encode.encode σ' (pointer_ref source target response prev) = Ok record
       ∧ Encode.encode σ' (node_ref target) = Ok target_record
       ∧ next_step record = Some (dialog_node target_record)
       ∧ dialog_node target_record = target
       ∧ conditions record = Some response
       ∧ output record = None)
  ∧ (∀ rec items previous_sibling acc (σ : store),
       placed σ target →
       tree_loop rec source ((response, target) :: items) previous_sibling acc σ
       = tree_loop rec source items
           (Some (pointer_ref source target response previous_sibling))
           (acc ++ [pointer_ref source target response previous_sibling]) σ).
Proof.
  intros Hfresh Hrun Hin. apply tree_walk in Hrun.
  destruct (proj1 walk_pointers_mutual _ _ _ _ Hrun _ _ _ _ Hin)
    as [Hchoice Hbefore].
  destruct Hbefore as [Hplaced|Hprec]; [by apply fresh_not_placed in Hplaced|].
  split; [done|]. split; [done|]. split.
  - destruct Hprec as (before & after & -> & Htarget).
    destruct (walk_nodes_in_store _ _ _ _ target Hrun) as [n Hn].
    { apply elem_of_app. by left. }
    assert (StoryNode.id n = target) as Hid.
    { eapply extends_keyed; [by eapply walk_extends | | exact Hn].
      apply store_of_nodes_keyed. }
    eexists _, _. simpl. rewrite Hn. split; [done|]. split; [done|].
    simpl. by rewrite Hid.
  - intros. by apply tree_loop_pointer.
Qed.

Lemma pointer_correct_witness :
  ∃ out σ',
    Forall fresh Scenario.nodes
    ∧ tree 4 "A" (StoryTree.store_of_nodes Scenario.nodes) = Ok (out, σ')
    ∧ pointer_ref "A" "C" "go right" (Some (node_ref "B")) ∈ out
    ∧ choice_of (StoryTree.store_of_nodes Scenario.nodes) "A" "go right" "C"
    ∧ precedes (node_ref "C")
               (pointer_ref "A" "C" "go right" (Some (node_ref "B"))) out
    ∧ (∃ record target_record,
         Encode.encode σ' (pointer_ref "A" "C" "go right" (Some (node_ref "B")))
         = Ok record
         ∧ Encode.encode σ' (node_ref "C") = Ok target_record
         ∧ next_step record = Some (dialog_node target_record)
         ∧ dialog_node target_record = "C"
         ∧ conditions record = Some "go right"
         ∧ output record = None)
    ∧ (∀ rec items previous_sibling acc (σ : store),
         placed σ "C" →
         tree_loop rec "A" (("go right", "C") :: items) previous_sibling acc σ
         = tree_loop rec "A" items
             (Some (pointer_ref "A" "C" "go right" previous_sibling))
             (acc ++ [pointer_ref "A" "C" "go right" previous_sibling]) σ).
Proof.
  assert (Forall fresh Scenario.nodes) as Hfresh by (repeat constructor).
  assert (∃ before σ',
            tree 4 "A" (StoryTree.store_of_nodes Scenario.nodes)
            = Ok (before
                  ++ [pointer_ref "A" "C" "go right" (Some (node_ref "B"))], σ'))
    as (before & σ' & Hrun)
    by (eexists [_; _; _; _; _], _; vm_compute; reflexivity).
  assert (pointer_ref "A" "C" "go right" (Some (node_ref "B"))
          ∈ before ++ [pointer_ref "A" "C" "go right" (Some (node_ref "B"))])
    as Hin by (apply elem_of_app; right; left).
  eexists _, σ'. split; [exact Hfresh|]. split; [exact Hrun|].
  split; [exact Hin|].
  exact (pointer_correct Scenario.nodes 4 "A" _ σ' "A" "C" "go right"
           (Some (node_ref "B")) Hfresh Hrun Hin).
Defined.

(** The output of [tree] on the scenario, for every budget above 3. *)
Lemma scenario_tree re_sub fuel :
  3 < fuel →
  ∃ σ',
    tree fuel "A" (story_nodes_of re_sub [] Scenario.nodes)
    = Ok ([ node_ref "A"; node_ref "B"; node_ref "A";
            pointer_ref "A" "B" "#go_left" None;
            node_ref "C";
            pointer_ref "A" "C" "#go_right" (Some (node_ref "B")) ], σ').
Proof.
  intros Hfuel. eexists.
  rewrite (tree_budget_mono 4 fuel) by (done || lia).
  vm_compute. reflexivity.
Qed.

(** C3. On the scenario the choice "back" of [B] leads to [A], and [A] has
    its place already when this choice is processed: it is the first
    element of the output, put there before [B].  Yet no pointer is made
    for the choice, for [A] has no parent then: the output holds no
    pointer with source [B] and the document no jump to [A]; [tree] is
    entered for [A] once more, which comes again after [B] in the output,
    and the records under [B] are the content record of [A] itself, at both
    places. *)
Theorem scenario_back_edge_without_pointer re_sub list_set fuel :
  enumerates list_set →
  3 < fuel →
  ∃ out σ' doc,
    tree fuel "A" (story_nodes_of re_sub [] Scenario.nodes) = Ok (out, σ')
    ∧ StoryTree.export re_sub list_set fuel Scenario.story = Ok doc
    ∧ choice_of (story_nodes_of re_sub [] Scenario.nodes) "B" "#back" "A"
    ∧ out = [ node_ref "A"; node_ref "B"; node_ref "A";
              pointer_ref "A" "B" "#go_left" None;
              node_ref "C";
              pointer_ref "A" "C" "#go_right" (Some (node_ref "B")) ]
    ∧ (∀ target condition previous,
         pointer_ref "B" target condition previous ∉ out)
    ∧ (∀ r, r ∈ dialog_nodes doc → next_step r ≠ Some "A")
    ∧ filter (λ r, parent r = Some "B") (dialog_nodes doc)
      = [ Expected.content "A" Expected.text_A (Some "B") None
            "conversation_start";
          Expected.content "A" Expected.text_A (Some "B") None
            "conversation_start" ].
Proof.
  intros Henum Hfuel. destruct (scenario_tree re_sub fuel Hfuel) as [σ' Hrun].
  eexists _, σ', _. split; [exact Hrun|].
  split; [by apply scenario_export|].
  split; [eexists; split; [vm_compute; reflexivity | left]|].
  split; [reflexivity|]. split; [|split].
  - intros target condition previous Hin.
    repeat (apply elem_of_cons in Hin as [[=]|Hin]).
    by apply elem_of_nil in Hin.
  - simpl. apply Forall_forall. by_compute.
  - reflexivity.
Qed.

Lemma scenario_back_edge_without_pointer_witness :
  enumerates remove_dups ∧ 3 < 4
  ∧ ∃ out σ' doc,
      tree 4 "A" (story_nodes_of no_match [] Scenario.nodes) = Ok (out, σ')
      ∧ StoryTree.export no_match remove_dups 4 Scenario.story = Ok doc
      ∧ choice_of (story_nodes_of no_match [] Scenario.nodes) "B" "#back" "A"
      ∧ out = [ node_ref "A"; node_ref "B"; node_ref "A";
                pointer_ref "A" "B" "#go_left" None;
                node_ref "C";
                pointer_ref "A" "C" "#go_right" (Some (node_ref "B")) ]
      ∧ (∀ target condition previous,
           pointer_ref "B" target condition previous ∉ out)
      ∧ (∀ r, r ∈ dialog_nodes doc → next_step r ≠ Some "A")
      ∧ filter (λ r, parent r = Some "B") (dialog_nodes doc)
        = [ Expected.content "A" Expected.text_A (Some "B") None
              "conversation_start";
            Expected.content "A" Expected.text_A (Some "B") None
              "conversation_start" ].
Proof.
  assert (3 < 4) as Hfuel by lia.
  split; [exact enumerates_remove_dups|]. split; [exact Hfuel|].
  exact (scenario_back_edge_without_pointer no_match remove_dups 4
           enumerates_remove_dups Hfuel).
Defined.

(** ** Choices that lead nowhere *)

Lemma edge_extends σ σ' x y : extends σ σ' → edge σ x y ↔ edge σ' x y.
Proof.
  intros Hext. unfold edge. split; intros [label Hchoice]; exists label.
  - by apply (choice_of_extends _ _ x label y Hext).
  - by apply (choice_of_extends _ _ x label y Hext).
Qed.

Lemma reachable_extends σ σ' root y :
  extends σ σ' → reachable σ root y ↔ reachable σ' root y.
Proof.
  intros Hext. unfold reachable. split; apply rtc_subrel; intros x z.
  - apply (edge_extends _ _ x z Hext).
  - apply (edge_extends _ _ x z Hext).
Qed.

Lemma missing_target_extends σ σ' self e :
  extends σ σ' → missing_target σ' self e → missing_target σ self e.
Proof.
  intros Hext (key & -> & Hnone & Hreach). exists key. split; [done|]. split.
  - destruct (σ !! key) as [n|] eqn:Hn; [|done].
    destruct (extends_lookup _ _ _ _ Hext Hn) as (n' & Hn' & _). congruence.
  - by apply (reachable_extends _ _ self key Hext).
Qed.

Lemma missing_target_step σ self target e :
  edge σ self target → missing_target σ target e → missing_target σ self e.
Proof.
  intros Hedge (key & -> & Hnone & Hreach). exists key.
  split; [done|]. split; [done|]. by eapply rtc_l.
Qed.

(** *** What a raised exception tells *)

Lemma tree_loop_raise rec self :
  (∀ k σ out σ', rec k σ = Ok (out, σ') → walk k σ out σ') →
  (∀ k σ e, rec k σ = Raise e → missing_target σ k e) →
  ∀ items prev nodes σ e,
    is_Some (σ !! self) →
    (∀ r t, (r, t) ∈ items → edge σ self t) →
    tree_loop rec self items prev nodes σ = Raise e →
    missing_target σ self e.
Proof.
  intros Hwalk Hrec. induction items as [|[response target] items IH];
    intros prev nodes σ e Hself Hitems Hrun; simpl in Hrun; [done|].
  assert (edge σ self target) as Hedge by (apply (Hitems response); left).
  assert (∀ r t, (r, t) ∈ items → edge σ self t) as Hitems'
    by (intros r t ?; apply (Hitems r); by right).
  destruct (σ !! target) as [child|] eqn:Hchild.
  - destruct (StoryNode.parent child) as [p|] eqn:Hparent; [by eapply IH|].
    destruct Hself as [this Hself]. rewrite Hself in Hrun.
    pose proof (extends_place σ self prev response target child Hchild Hparent)
      as Hext0.
    destruct (rec target _) as [[sub σ1]| |] eqn:Hsub; [| |done].
    + apply Hwalk, walk_extends in Hsub.
      pose proof (extends_trans _ _ _ Hext0 Hsub) as Hext1.
      apply (missing_target_extends _ _ _ _ Hext1).
      eapply IH; [| |exact Hrun].
      * apply (extends_is_Some _ _ self Hext1). eauto.
      * intros r t Hin. apply (edge_extends _ _ self t Hext1). eauto.
    + injection Hrun as <-. apply Hrec in Hsub.
      apply (missing_target_step _ _ target); [done|].
      by apply (missing_target_extends _ _ _ _ Hext0).
  - injection Hrun as <-. exists target.
    split; [done|]. split; [done|]. by apply rtc_once.
Qed.

Lemma tree_raise fuel :
  ∀ self σ e, tree fuel self σ = Raise e → missing_target σ self e.
Proof.
  induction fuel as [|fuel IH]; intros self σ e Hrun; [done|].
  rewrite tree_S in Hrun. destruct (σ !! self) as [this|] eqn:Hself.
  - eapply tree_loop_raise; [apply tree_walk | exact IH | eauto | | exact Hrun].
    intros r t Hin. exists r, this. done.
  - injection Hrun as <-. exists self. split; [done|]. split; [done|].
    apply rtc_refl.
Qed.

(** *** What a returning walk has visited *)

Lemma walked_extends σ σ' x : extends σ σ' → walked σ x → walked σ' x.
Proof.
  intros Hext Hwalked y Hedge. apply (extends_placed _ _ y Hext).
  apply Hwalked. by apply (edge_extends _ _ x y Hext).
Qed.

Lemma walk_walked_mutual :
  (∀ self σ out σ', walk self σ out σ' →
     walked σ' self ∧ ∀ x, placed σ' x → ¬ placed σ x → walked σ' x)
  ∧ (∀ self items prev σ produced σ',
       walk_loop self items prev σ produced σ' →
       (∀ r t, (r, t) ∈ items → placed σ' t)
       ∧ ∀ x, placed σ' x → ¬ placed σ x → walked σ' x).
Proof.
  apply walk_mutind.
  - intros self σ this produced σ' Hself Hloop [Hitems Hnew]. split; [|done].
    intros y (label & n' & Hn' & Hin).
    pose proof (walk_loop_extends _ _ _ _ _ _ Hloop) as Hext.
    destruct (extends_lookup _ _ _ _ Hext Hself) as (n & Hn & He).
    rewrite Hn' in Hn. injection Hn as <-.
    destruct He as (_ & _ & Hchildren & _). rewrite Hchildren in Hin. eauto.
  - intros self prev σ. split.
    + intros r t Hin. by apply elem_of_nil in Hin.
    + done.
  - intros self response target items prev σ child sub σ1 rest σ'
      Hchild Hparent _ Hsub [Htarget Hnew1] Hrest [Hitems Hnew2].
    pose proof (walk_extends _ _ _ _ Hsub) as Hext1.
    pose proof (walk_loop_extends _ _ _ _ _ _ Hrest) as Hext2.
    split.
    + intros r t [[= -> ->]|Hin]%elem_of_cons; [|eauto].
      apply (extends_placed _ _ target (extends_trans _ _ _ Hext1 Hext2)).
      eexists. rewrite lookup_insert_eq, place_child_parent. done.
    + intros x Hplaced Hnot.
      destruct (decide (placed σ1 x)) as [Hplaced1|Hnot1]; [|by apply Hnew2].
      apply (walked_extends _ _ x Hext2).
      destruct (decide
        (placed (<[target := place_child self prev response child]> σ) x))
        as [Hplaced0|Hnot0]; [|by apply Hnew1].
      apply placed_insert_place in Hplaced0 as [->|?]; done.
  - intros self response target items prev σ child rest σ'
      Hchild Hparent Hrest [Hitems Hnew]. split; [|done].
    intros r t [[= -> ->]|Hin]%elem_of_cons; [|eauto].
    apply (extends_placed _ _ target (walk_loop_extends _ _ _ _ _ _ Hrest)).
    by exists child.
Qed.

(** When the walk returns, every target it could reach is a node. *)
Lemma walk_reaches_nodes root σ out σ' y :
  (∀ key, ¬ placed σ key) →
  walk root σ out σ' →
  reachable σ root y → is_Some (σ !! y).
Proof.
  intros Hnone Hwalk Hreach.
  pose proof (walk_extends _ _ _ _ Hwalk) as Hext.
  destruct (proj1 walk_walked_mutual _ _ _ _ Hwalk) as [Hroot Hnew].
  apply (extends_is_Some _ _ y Hext).
  apply (reachable_extends _ _ root y Hext) in Hreach.
  assert (∀ z, rtc (edge σ') root z → z = root ∨ placed σ' z) as Hclosed.
  { apply rtc_ind_r; [by left|]. intros x z _ Hedge IH.
    right. destruct IH as [->|Hplaced]; [by apply Hroot|].
    by apply (Hnew x Hplaced (Hnone x)). }
  destruct (Hclosed y Hreach) as [->|(n & Hn & _)]; [|eauto].
  inversion Hwalk as [? ? this ? ? Hself _]; subst.
  apply (extends_is_Some _ _ root Hext). eauto.
Qed.

Lemma rewritten_fresh re_sub voices nodes :
  Forall fresh nodes → Forall fresh (rewritten re_sub voices <$> nodes).
Proof.
  intros Hfresh. apply Forall_fmap. eapply Forall_impl; [exact Hfresh|].
  by intros n (? & ? & ?).
Qed.




(** The hypothesis that the node with the choice is reached from the first
    node cannot be dropped: a choice of [B] leads to the id "Z" of no node,
    and [export] returns a document all the same, since no choice leads to
    [B] and the walk never looks "Z" up. *)
Example unreached_choice_exports :
  (∃ n label target,
     n ∈ StoryTree.nodes Unreached.story
     ∧ (label, target) ∈ StoryNode.children n
     ∧ target ∉ StoryNode.id <$> StoryTree.nodes Unreached.story)
  ∧ ∃ doc, StoryTree.export no_match remove_dups 3 Unreached.story = Ok doc.
Proof.
  split.
  - exists Unreached.B, "x", "Z". split; [right; left|]. split; [left|].
    by_compute.
  - eexists. vm_compute. reflexivity.
Qed.

(** * Further properties of the code *)

(** ** [export]: when it raises *)

(** X1. [export] of a tree without nodes raises [IndexError] (the first
    key of an empty dictionary is asked for), whether the voice map is
    set or not. *)
Theorem export_no_nodes re_sub list_set fuel voices :
  StoryTree.export re_sub list_set fuel (StoryTree.mk [] voices)
  = Raise IndexError.
Proof.
  unfold StoryTree.export, StoryTree.extract_intents. simpl.
  by destruct (StoryTree.intents_loop _ _ _) as [found r2i].
Qed.

Lemma rewrite_node_unset r2i node items :
  StoryTree.rewrite_loop r2i (StoryNode.children node) [] = Ok items →
  ∀ re_sub, StoryTree.rewrite_node re_sub None r2i node = Raise AttributeError.
Proof. intros Hloop re_sub. unfold StoryTree.rewrite_node. by rewrite Hloop. Qed.

(** X2. [export] of a tree that has a node and whose voice map was never
    set raises [AttributeError], whatever the nodes are: the first pass of
    the second loop reads [self.voices]. *)
Theorem export_voices_unset re_sub list_set fuel first rest :
  enumerates list_set →
  StoryTree.export re_sub list_set fuel (StoryTree.mk (first :: rest) None)
  = Raise AttributeError.
Proof.
  intros Henum. unfold StoryTree.export, StoryTree.extract_intents.
  cbn [StoryTree.nodes StoryTree.voices].
  set (responses := list_set _).
  pose proof (intents_loop_lookup responses [] ∅) as Hlook.
  destruct (StoryTree.intents_loop responses [] ∅) as [found r2i].
  simpl in Hlook. rewrite fmap_cons. cbn [mapM].
  rewrite (rewrite_node_unset r2i (StoryTree.annotate first)
             (dict_rename intent_ref (StoryNode.children first) [])); [done|].
  apply rewrite_loop_ok. intros r t Hrt Hres.
  rewrite Hlook, decide_True; [done|]. split; [|done].
  apply Henum, elem_of_collect_responses. exists first, t. split; [left | done].
Qed.

Lemma export_voices_unset_witness :
  enumerates remove_dups
  ∧ StoryTree.export no_match remove_dups 4
      (StoryTree.mk (Scenario.A :: [Scenario.B; Scenario.C]) None)
    = Raise AttributeError.
Proof.
  split; [exact enumerates_remove_dups|].
  exact (export_voices_unset no_match remove_dups 4 Scenario.A
           [Scenario.B; Scenario.C] enumerates_remove_dups).
Defined.

(** ** Links of the records *)

(** A node that a walk gave its parent: the parent is the node the loop
    ran for, the condition the label of one of its choices to that node,
    and parent, node and previous sibling are in what the walk put out. *)
Lemma walk_links_mutual :
  (∀ self σ out σ', walk self σ out σ' → unlinked σ →
     ∀ key n, σ' !! key = Some n → StoryNode.parent n ≠ None → ¬ placed σ key →
       ∃ p c, StoryNode.parent n = Some p ∧ StoryNode.conditions n = Some c
              ∧ choice_of σ p c key
              ∧ node_ref p ∈ out ∧ node_ref key ∈ out
              ∧ ∀ q, StoryNode.previous_sibling n = Some q → q ∈ out)
  ∧ (∀ self items prev σ produced σ',
       walk_loop self items prev σ produced σ' → unlinked σ →
       ∀ key n, σ' !! key = Some n → StoryNode.parent n ≠ None →
                ¬ placed σ key →
         ∃ p c, StoryNode.parent n = Some p ∧ StoryNode.conditions n = Some c
                ∧ ((p = self ∧ (c, key) ∈ items) ∨ choice_of σ p c key)
                ∧ (p = self ∨ node_ref p ∈ produced)
                ∧ node_ref key ∈ produced
                ∧ ∀ q, StoryNode.previous_sibling n = Some q →
                       prev = Some q ∨ q ∈ produced).
Proof.
  apply walk_mutind.
  - intros self σ this produced σ' Hself Hloop IH Hun key n Hn Hp Hnot.
    destruct (IH Hun key n Hn Hp Hnot)
      as (p & c & Hparent & Hcond & Hchoice & Hpin & Hkin & Hprev).
    exists p, c. split; [done|]. split; [done|]. split; [|split; [|split]].
    + destruct Hchoice as [[-> Hin]|?]; [by exists this | done].
    + destruct Hpin as [->|?]; [left | by right].
    + by right.
    + intros q Hq. destruct (Hprev q Hq) as [[=]|?]. by right.
  - intros self prev σ Hun key n Hn Hp Hnot. exfalso. apply Hnot. by exists n.
  - intros self response target items prev σ child sub σ1 rest σ'
      Hchild Hparent _ Hsub IHsub Hrest IHrest Hun key n Hn Hp Hnot.
    pose proof (extends_place σ self prev response target child Hchild Hparent)
      as Hext0.
    pose proof (walk_extends _ _ _ _ Hsub) as Hext1.
    pose proof (walk_loop_extends _ _ _ _ _ _ Hrest) as Hext2.
    assert (unlinked (<[target := place_child self prev response child]> σ))
      as Hun0 by (by eapply extends_unlinked).
    assert (unlinked σ1) as Hun1 by (by eapply extends_unlinked).
    destruct (walk_head _ _ _ _ Hsub) as [produced Hsubeq].
    destruct (decide (placed σ1 key)) as [Hplaced1|Hnot1].
    + destruct Hplaced1 as (n1 & Hn1 & Hp1).
      pose proof (extends_frozen _ _ _ _ Hext2 Hn1 Hp1) as Hn'.
      rewrite Hn in Hn'. injection Hn' as <-.
      destruct (decide
        (placed (<[target := place_child self prev response child]> σ) key))
        as [Hplaced0|Hnot0].
      * apply placed_insert_place in Hplaced0 as [->|?]; [|done..].
        assert (n = place_child self prev response child) as ->.
        { pose proof (extends_frozen _ _ target
                        (place_child self prev response child) Hext1) as Hfr.
          rewrite lookup_insert_eq, place_child_parent in Hfr.
          specialize (Hfr eq_refl ltac:(done)). congruence. }
        exists self, response.
        rewrite place_child_parent, place_child_conditions.
        split; [done|]. split; [done|]. split; [left; split; [done | left]|].
        split; [by left|]. split.
        -- apply elem_of_app. left. rewrite Hsubeq. left.
        -- intros q Hq. left.
           rewrite (place_child_previous_sibling self prev response child)
             in Hq by (by apply (Hun target child)).
           done.
      * destruct (IHsub Hun0 key n Hn1 Hp Hnot0)
          as (p & c & Hpar & Hcond & Hchoice & Hpin & Hkin & Hprev).
        exists p, c. split; [done|]. split; [done|]. split; [|split; [|split]].
        -- right. by apply (choice_of_extends _ _ p c key Hext0).
        -- right. apply elem_of_app. by left.
        -- apply elem_of_app. by left.
        -- intros q Hq. right. apply elem_of_app. left. by apply Hprev.
    + destruct (IHrest Hun1 key n Hn Hp Hnot1)
        as (p & c & Hpar & Hcond & Hchoice & Hpin & Hkin & Hprev).
      exists p, c. split; [done|]. split; [done|]. split; [|split; [|split]].
      * destruct Hchoice as [[-> Hin]|Hchoice]; [left; split; [done | by right]|].
        right.
        by apply (choice_of_extends _ _ p c key (extends_trans _ _ _ Hext0 Hext1)).
      * destruct Hpin as [->|?]; [by left | right; apply elem_of_app; by right].
      * apply elem_of_app. by right.
      * intros q Hq. right. apply elem_of_app.
        destruct (Hprev q Hq) as [[= <-]|?]; [left; rewrite Hsubeq; left | by right].
  - intros self response target items prev σ child rest σ'
      Hchild Hparent Hrest IHrest Hun key n Hn Hp Hnot.
    destruct (IHrest Hun key n Hn Hp Hnot)
      as (p & c & Hpar & Hcond & Hchoice & Hpin & Hkin & Hprev).
    exists p, c. split; [done|]. split; [done|]. split; [|split; [|split]].
    + destruct Hchoice as [[-> Hin]|?]; [left; split; [done | by right] | by right].
    + destruct Hpin as [->|?]; [by left | right; by right].
    + by right.
    + intros q Hq. right.
      destruct (Hprev q Hq) as [[= <-]|?]; [left | by right].
Qed.

(** The same for the pointers: the source of a pointer is the node the
    loop ran for, its previous sibling was put out before it. *)
Lemma walk_pointer_links_mutual :
  (∀ self σ out σ', walk self σ out σ' →
     ∀ s t c p, pointer_ref s t c p ∈ out →
       node_ref s ∈ out ∧ ∀ q, p = Some q → q ∈ out)
  ∧ (∀ self items prev σ produced σ',
       walk_loop self items prev σ produced σ' →
       ∀ s t c p, pointer_ref s t c p ∈ produced →
         (s = self ∨ node_ref s ∈ produced)
         ∧ ∀ q, p = Some q → prev = Some q ∨ q ∈ produced).
Proof.
  apply walk_mutind.
  - intros self σ this produced σ' _ _ IH s t c p [[=]|Hin]%elem_of_cons.
    destruct (IH s t c p Hin) as [Hs Hq]. split.
    + destruct Hs as [->|?]; [left | by right].
    + intros q Hp. destruct (Hq q Hp) as [[=]|?]. by right.
  - intros self prev σ s t c p Hin. by apply elem_of_nil in Hin.
  - intros self response target items prev σ child sub σ1 rest σ'
      _ _ _ Hsub IHsub _ IHrest s t c p [Hin|Hin]%elem_of_app.
    + destruct (IHsub s t c p Hin) as [Hs Hq]. split.
      * right. apply elem_of_app. by left.
      * intros q Hp. right. apply elem_of_app. left. by apply Hq.
    + destruct (IHrest s t c p Hin) as [Hs Hq]. split.
      * destruct Hs as [->|?]; [by left | right; apply elem_of_app; by right].
      * intros q Hp. right. apply elem_of_app.
        destruct (Hq q Hp) as [[= <-]|?]; [|by right].
        left. destruct (walk_head _ _ _ _ Hsub) as [produced ->]. left.
  - intros self response target items prev σ child rest σ'
      _ _ _ IH s t c p [Heq|Hin]%elem_of_cons.
    + injection Heq as -> -> -> ->. split; [by left|].
      intros q ->. by left.
    + destruct (IH s t c p Hin) as [Hs Hq]. split.
      * destruct Hs as [->|?]; [by left | right; by right].
      * intros q Hp. right.
        destruct (Hq q Hp) as [[= <-]|?]; [left | by right].
Qed.

Lemma Forall2_elem_of_l {A B} (P : A → B → Prop) l k x :
  Forall2 P l k → x ∈ l → ∃ y, y ∈ k ∧ P x y.
Proof.
  intros Hall [i Hi]%list_elem_of_lookup.
  destruct (Forall2_lookup_l _ _ _ _ _ Hall Hi) as (y & Hy & HP).
  exists y. split; [by eapply list_elem_of_lookup_2 | done].
Qed.

Lemma Forall2_elem_of_r {A B} (P : A → B → Prop) l k y :
  Forall2 P l k → y ∈ k → ∃ x, x ∈ l ∧ P x y.
Proof.
  intros Hall [i Hi]%list_elem_of_lookup.
  destruct (Forall2_lookup_r _ _ _ _ _ Hall Hi) as (x & Hx & HP).
  exists x. split; [by eapply list_elem_of_lookup_2 | done].
Qed.

(** The links of every element that [tree] puts out after the first, on
    nodes as they are loaded. *)
Lemma tree_links nodes fuel root produced σ' o :
  Forall fresh nodes →
  tree fuel root (StoryTree.store_of_nodes nodes)
  = Ok (node_ref root :: produced, σ') →
  o ∈ produced →
  ∃ p c, parent_of σ' o = Some p ∧ condition_of σ' o = Some c
         ∧ choice_of (StoryTree.store_of_nodes nodes) p c (target_of o)
         ∧ node_ref p ∈ node_ref root :: produced
         ∧ node_ref (target_of o) ∈ node_ref root :: produced.
Proof.
  intros Hfresh Hrun Hin. apply tree_walk in Hrun.
  destruct o as [key|s t c prev].
  - destruct (proj1 walk_places_once_mutual _ _ _ _ Hrun)
      as (produced' & [= <-] & _ & Hnew).
    destruct (Hnew key) as [Hnot (n & Hn & Hp)]; [by apply elem_of_node_keys|].
    destruct (proj1 walk_links_mutual _ _ _ _ Hrun (fresh_unlinked _ Hfresh)
                key n Hn Hp Hnot)
      as (p & c & Hpar & Hcond & Hchoice & Hpin & Hkin & _).
    exists p, c. simpl. rewrite Hn. done.
  - assert (pointer_ref s t c prev ∈ node_ref root :: produced) as Hin'
      by (by right).
    destruct (proj1 walk_pointers_mutual _ _ _ _ Hrun _ _ _ _ Hin')
      as [Hchoice Hbefore].
    destruct (proj1 walk_pointer_links_mutual _ _ _ _ Hrun _ _ _ _ Hin')
      as [Hs _].
    exists s, c. simpl. split; [done|]. split; [done|]. split; [done|].
    split; [done|].
    destruct Hbefore as [Hplaced|(before & after & Heq & Ht)];
      [by apply fresh_not_placed in Hplaced|].
    rewrite Heq. apply elem_of_app. by left.
Qed.

(** The previous sibling of every element that [tree] puts out, the first
    included, is in the output too. *)
Lemma tree_previous_sibling nodes fuel root out σ' o q :
  Forall fresh nodes →
  tree fuel root (StoryTree.store_of_nodes nodes) = Ok (out, σ') →
  o ∈ out → prev_of σ' o = Some q → q ∈ out.
Proof.
  intros Hfresh Hrun Hin Hq. apply tree_walk in Hrun.
  pose proof (fresh_unlinked _ Hfresh) as Hun.
  destruct o as [key|s t c prev]; simpl in Hq.
  - destruct (σ' !! key) as [n|] eqn:Hn; [|done]. simpl in Hq.
    destruct (StoryNode.parent n) as [p|] eqn:Hp.
    + destruct (proj1 walk_links_mutual _ _ _ _ Hrun Hun key n Hn)
        as (_ & _ & _ & _ & _ & _ & _ & Hprev); [congruence| |by apply Hprev].
      by apply fresh_not_placed.
    + pose proof (extends_unlinked _ _ (walk_extends _ _ _ _ Hrun) Hun key n Hn Hp).
      congruence.
  - subst prev.
    by apply (proj1 walk_pointer_links_mutual _ _ _ _ Hrun _ _ _ _ Hin).
Qed.

(** *** From the output of [tree] to the document *)

Lemma export_inv re_sub list_set fuel self voices first rest doc :
  enumerates list_set →
  StoryTree.voices self = Some voices →
  StoryTree.nodes self = first :: rest →
  StoryTree.export re_sub list_set fuel self = Ok doc →
  ∃ produced σ',
    tree fuel (StoryNode.id first)
         (story_nodes_of re_sub voices (StoryTree.nodes self))
    = Ok (node_ref (StoryNode.id first) :: produced, σ')
    ∧ Forall2 (λ o j, Encode.encode (started (StoryNode.id first) σ') o = Ok j)
              (node_ref (StoryNode.id first) :: produced) (dialog_nodes doc).
Proof.
  intros Henum Hvoices Hnodes.
  rewrite (export_unfold _ _ _ _ voices first rest) by done.
  destruct (tree fuel _ _) as [[out σ']| |] eqn:Hrun; [|done..].
  destruct (walk_head _ _ _ _ (tree_walk _ _ _ _ _ Hrun)) as [produced ->].
  unfold StoryTree.set_start. cbn [mbind result_bind].
  fold (started (StoryNode.id first) σ').
  destruct (mapM _ _) as [dns| |] eqn:Hdns; [|done..].
  intros [= <-]. exists produced, σ'. split; [done|]. by apply mapM_Forall2.
Qed.

(** What [encode] reads from the dictionary as [export] leaves it. *)
Lemma encode_started root σ' o r :
  keyed σ' →
  Encode.encode (started root σ') o = Ok r →
  dialog_node r = ref_id o
  ∧ parent r = parent_of σ' o
  ∧ previous_sibling r = ref_id <$> prev_of σ' o
  ∧ next_step r
    = match o with pointer_ref _ t _ _ => Some t | node_ref _ => None end
  ∧ (is_Some (condition_of σ' o) → is_Some (conditions r)).
Proof.
  intros Hkeyed. destruct o as [key|s t c prev]; simpl.
  - unfold started. rewrite lookup_alter.
    destruct (σ' !! key) as [n|] eqn:Hn.
    + pose proof (Hkeyed key n Hn) as Hid.
      case_decide as Hroot; [subst root; rewrite Hn|]; simpl; intros [= <-];
        simpl; repeat split; eauto.
    + case_decide as Hroot; [subst root; rewrite Hn|]; done.
  - intros [= <-]. simpl. repeat split; eauto.
Qed.

Lemma export_keyed re_sub voices nodes fuel root out σ' :
  tree fuel root (story_nodes_of re_sub voices nodes) = Ok (out, σ') →
  keyed σ'.
Proof.
  intros Hrun. eapply extends_keyed; [by eapply walk_extends, tree_walk|].
  apply store_of_nodes_keyed.
Qed.

Lemma tree_parent_in_output nodes fuel root out σ' o p :
  Forall fresh nodes →
  tree fuel root (StoryTree.store_of_nodes nodes) = Ok (out, σ') →
  o ∈ out → parent_of σ' o = Some p → node_ref p ∈ out.
Proof.
  intros Hfresh Hrun Hin Hp. apply tree_walk in Hrun.
  destruct o as [key|s t c prev]; simpl in Hp.
  - destruct (σ' !! key) as [n|] eqn:Hn; [|done]. simpl in Hp.
    destruct (proj1 walk_links_mutual _ _ _ _ Hrun (fresh_unlinked _ Hfresh)
                key n Hn)
      as (p' & _ & Hpar & _ & _ & Hpin & _); [congruence| |congruence].
    by apply fresh_not_placed.
  - injection Hp as <-.
    by destruct (proj1 walk_pointer_links_mutual _ _ _ _ Hrun _ _ _ _ Hin).
Qed.

(** X3. In a document that [export] returns for nodes as they are loaded,
    every reference resolves: each record after the first has a condition
    and a parent; whatever a record names as [parent] or as the target of
    its jump is the [dialog_node] of a content record of the document, and
    whatever it names as [previous_sibling] is the [dialog_node] of a
    record of the document. *)
Theorem document_links_resolve re_sub list_set fuel self voices first rest doc :
  enumerates list_set →
  StoryTree.voices self = Some voices →
  StoryTree.nodes self = first :: rest →
  Forall fresh (StoryTree.nodes self) →
  StoryTree.export re_sub list_set fuel self = Ok doc →
  ∃ root_record records,
    dialog_nodes doc = root_record :: records
    ∧ (∀ r, r ∈ records → is_Some (parent r) ∧ is_Some (conditions r))
    ∧ (∀ r p, r ∈ dialog_nodes doc → parent r = Some p →
         ∃ r', r' ∈ dialog_nodes doc ∧ is_content_of p r')
    ∧ (∀ r t, r ∈ dialog_nodes doc → next_step r = Some t →
         ∃ r', r' ∈ dialog_nodes doc ∧ is_content_of t r')
    ∧ (∀ r s, r ∈ dialog_nodes doc → previous_sibling r = Some s →
         ∃ r', r' ∈ dialog_nodes doc ∧ dialog_node r' = s).
Proof.
  intros Henum Hvoices Hnodes Hfresh Hexport.
  destruct (export_inv _ _ _ _ voices first rest doc Henum Hvoices Hnodes Hexport)
    as (produced & σ' & Hrun & Hdns).
  pose proof (export_keyed _ _ _ _ _ _ _ Hrun) as Hkeyed.
  pose proof (rewritten_fresh re_sub voices _ Hfresh) as Hfresh'.
  unfold story_nodes_of in Hrun.
  set (root := StoryNode.id first) in *.
  set (out := node_ref root :: produced) in *.
  assert (∀ key, node_ref key ∈ out →
            ∃ r', r' ∈ dialog_nodes doc ∧ is_content_of key r') as Hcontent.
  { intros key Hin.
    destruct (Forall2_elem_of_l _ _ _ _ Hdns Hin) as (r' & Hr' & Henc).
    exists r'. split; [done|].
    destruct (encode_started _ _ _ _ Hkeyed Henc) as (Hid & _ & _ & Hnext & _).
    by split. }
  inversion Hdns as [|o root_record os records Hroot Hrecords Ho Hdoc]; subst.
  exists root_record, records. split; [done|]. rewrite <- Hdoc in *.
  split; [|split; [|split]].
  - intros r Hin.
    destruct (Forall2_elem_of_r _ _ _ _ Hrecords Hin) as (o & Ho & Henc).
    destruct (encode_started _ _ _ _ Hkeyed Henc) as (_ & Hpar & _ & _ & Hcond).
    destruct (tree_links _ _ _ _ _ o Hfresh' Hrun Ho)
      as (p & c & Hp & Hc & _).
    split; [by rewrite Hpar, Hp | apply Hcond; by rewrite Hc].
  - intros r p Hin Hp.
    destruct (Forall2_elem_of_r _ _ _ _ Hdns Hin) as (o & Ho & Henc).
    destruct (encode_started _ _ _ _ Hkeyed Henc) as (_ & Hpar & _).
    rewrite Hpar in Hp. apply Hcontent.
    by eapply tree_parent_in_output.
  - intros r t Hin Ht.
    destruct (Forall2_elem_of_r _ _ _ _ Hdns Hin) as (o & Ho & Henc).
    destruct (encode_started _ _ _ _ Hkeyed Henc) as (_ & _ & _ & Hnext & _).
    rewrite Hnext in Ht. destruct o as [key|s t' c prev]; [done|].
    injection Ht as ->. apply Hcontent.
    apply elem_of_cons in Ho as [[=]|Ho].
    by destruct (tree_links _ _ _ _ _ _ Hfresh' Hrun Ho)
      as (_ & _ & _ & _ & _ & _ & ?).
  - intros r s Hin Hs.
    destruct (Forall2_elem_of_r _ _ _ _ Hdns Hin) as (o & Ho & Henc).
    destruct (encode_started _ _ _ _ Hkeyed Henc) as (_ & _ & Hprev & _).
    rewrite Hprev in Hs.
    destruct (prev_of σ' o) as [q|] eqn:Hq; [|done]. injection Hs as <-.
    pose proof (tree_previous_sibling _ _ _ _ _ _ _ Hfresh' Hrun Ho Hq) as Hqin.
    destruct (Forall2_elem_of_l _ _ _ _ Hdns Hqin) as (r' & Hr' & Henc').
    exists r'. split; [done|].
    by destruct (encode_started _ _ _ _ Hkeyed Henc') as (? & _).
Qed.

Lemma document_links_resolve_witness :
  ∃ doc,
    enumerates remove_dups
    ∧ StoryTree.voices Scenario.story = Some []
    ∧ StoryTree.nodes Scenario.story = Scenario.A :: [Scenario.B; Scenario.C]
    ∧ Forall fresh (StoryTree.nodes Scenario.story)
    ∧ StoryTree.export no_match remove_dups 4 Scenario.story = Ok doc
    ∧ ∃ root_record records,
        dialog_nodes doc = root_record :: records
        ∧ (∀ r, r ∈ records → is_Some (parent r) ∧ is_Some (conditions r))
        ∧ (∀ r p, r ∈ dialog_nodes doc → parent r = Some p →
             ∃ r', r' ∈ dialog_nodes doc ∧ is_content_of p r')
        ∧ (∀ r t, r ∈ dialog_nodes doc → next_step r = Some t →
             ∃ r', r' ∈ dialog_nodes doc ∧ is_content_of t r')
        ∧ (∀ r s, r ∈ dialog_nodes doc → previous_sibling r = Some s →
             ∃ r', r' ∈ dialog_nodes doc ∧ dialog_node r' = s).
Proof.
  assert (Forall fresh (StoryTree.nodes Scenario.story)) as Hfresh
    by (repeat constructor).
  assert (∃ doc, StoryTree.export no_match remove_dups 4 Scenario.story = Ok doc)
    as [doc Hdoc] by (eexists; vm_compute; reflexivity).
  exists doc. split; [exact enumerates_remove_dups|].
  split; [reflexivity|]. split; [reflexivity|]. split; [exact Hfresh|].
  split; [exact Hdoc|].
  exact (document_links_resolve no_match remove_dups 4 Scenario.story []
           Scenario.A [Scenario.B; Scenario.C] doc enumerates_remove_dups
           eq_refl eq_refl Hfresh Hdoc).
Defined.

(** ** Which nodes are in the output *)

Lemma walk_nodes_reachable_mutual :
  (∀ self σ out σ', walk self σ out σ' →
     ∀ key, node_ref key ∈ out → reachable σ self key)
  ∧ (∀ self items prev σ produced σ',
       walk_loop self items prev σ produced σ' →
       ∀ key, node_ref key ∈ produced →
         ∃ r t, (r, t) ∈ items ∧ reachable σ t key).
Proof.
  apply walk_mutind.
  - intros self σ this produced σ' Hself _ IH key [[= ->]|Hin]%elem_of_cons.
    + apply rtc_refl.
    + destruct (IH key Hin) as (r & t & Hrt & Hreach).
      eapply rtc_l; [|exact Hreach]. by exists r, this.
  - intros self prev σ key Hin. by apply elem_of_nil in Hin.
  - intros self response target items prev σ child sub σ1 rest σ'
      Hchild Hparent _ Hsub IHsub _ IHrest key [Hin|Hin]%elem_of_app.
    + exists response, target. split; [left|].
      apply (reachable_extends _ _ target key
               (extends_place σ self prev response target child Hchild Hparent)).
      by apply IHsub.
    + destruct (IHrest key Hin) as (r & t & Hrt & Hreach).
      exists r, t. split; [by right|].
      apply (reachable_extends _ _ t key
               (extends_trans _ _ _
                  (extends_place σ self prev response target child Hchild Hparent)
                  (walk_extends _ _ _ _ Hsub))).
      done.
  - intros self response target items prev σ child rest σ' _ _ _ IH key
      [[=]|Hin]%elem_of_cons.
    destruct (IH key Hin) as (r & t & Hrt & Hreach).
    exists r, t. split; [by right | done].
Qed.

(** On nodes as they are loaded, the nodes in the output of [tree] are
    those that the choices lead to from the root. *)
Lemma tree_nodes_reachable nodes fuel root out σ' key :
  Forall fresh nodes →
  tree fuel root (StoryTree.store_of_nodes nodes) = Ok (out, σ') →
  node_ref key ∈ out ↔ reachable (StoryTree.store_of_nodes nodes) root key.
Proof.
  intros Hfresh Hrun. apply tree_walk in Hrun. split.
  - exact (proj1 walk_nodes_reachable_mutual _ _ _ _ Hrun key).
  - intros Hreach.
    pose proof (walk_extends _ _ _ _ Hrun) as Hext.
    destruct (proj1 walk_walked_mutual _ _ _ _ Hrun) as [Hroot Hnew].
    apply (reachable_extends _ _ root key Hext) in Hreach.
    assert (∀ z, rtc (edge σ') root z → z = root ∨ placed σ' z) as Hclosed.
    { apply rtc_ind_r; [by left|]. intros x z _ Hedge IH.
      right. destruct IH as [->|Hplaced]; [by apply Hroot|].
      exact (Hnew x Hplaced (fresh_not_placed _ x Hfresh) z Hedge). }
    destruct (Hclosed key Hreach) as [->|Hplaced].
    + destruct (walk_head _ _ _ _ Hrun) as [produced ->]. left.
    + destruct (proj1 walk_placed_in_output_mutual _ _ _ _ Hrun key Hplaced)
        as [Hplaced0|?]; [|done].
      by apply fresh_not_placed in Hplaced0.
Qed.

(** X4. A document that [export] returns for nodes as they are loaded has
    a content record for an id exactly when the choices, as rewritten,
    lead to that id from the first node (which they do to the first node
    itself); a node that no chain of choices leads to is left out. *)
Theorem document_nodes_reachable re_sub list_set fuel self voices first rest
    doc key :
  enumerates list_set →
  StoryTree.voices self = Some voices →
  StoryTree.nodes self = first :: rest →
  Forall fresh (StoryTree.nodes self) →
  StoryTree.export re_sub list_set fuel self = Ok doc →
  (∃ r, r ∈ dialog_nodes doc ∧ is_content_of key r)
  ↔ reachable (story_nodes_of re_sub voices (StoryTree.nodes self))
              (StoryNode.id first) key.
Proof.
  intros Henum Hvoices Hnodes Hfresh Hexport.
  destruct (export_inv _ _ _ _ voices first rest doc Henum Hvoices Hnodes Hexport)
    as (produced & σ' & Hrun & Hdns).
  pose proof (export_keyed _ _ _ _ _ _ _ Hrun) as Hkeyed.
  pose proof (rewritten_fresh re_sub voices _ Hfresh) as Hfresh'.
  unfold story_nodes_of in *.
  rewrite <- (tree_nodes_reachable _ _ _ _ _ key Hfresh' Hrun). split.
  - intros (r & Hin & Hid & Hnext).
    destruct (Forall2_elem_of_r _ _ _ _ Hdns Hin) as (o & Ho & Henc).
    destruct (encode_started _ _ _ _ Hkeyed Henc) as (Hid' & _ & _ & Hnext' & _).
    rewrite Hnext' in Hnext. destruct o as [k|s t c prev]; [|done].
    simpl in Hid'. congruence.
  - intros Hin.
    destruct (Forall2_elem_of_l _ _ _ _ Hdns Hin) as (r & Hr & Henc).
    exists r. split; [done|].
    destruct (encode_started _ _ _ _ Hkeyed Henc) as (Hid & _ & _ & Hnext & _).
    by split.
Qed.

Lemma document_nodes_reachable_witness :
  ∃ doc,
    enumerates remove_dups
    ∧ StoryTree.voices Unreached.story = Some []
    ∧ StoryTree.nodes Unreached.story = Unreached.A :: [Unreached.B]
    ∧ Forall fresh (StoryTree.nodes Unreached.story)
    ∧ StoryTree.export no_match remove_dups 3 Unreached.story = Ok doc
    ∧ ((∃ r, r ∈ dialog_nodes doc ∧ is_content_of "B" r)
       ↔ reachable (story_nodes_of no_match [] (StoryTree.nodes Unreached.story))
                   (StoryNode.id Unreached.A) "B").
Proof.
  assert (Forall fresh (StoryTree.nodes Unreached.story)) as Hfresh
    by (repeat constructor).
  assert (∃ doc, StoryTree.export no_match remove_dups 3 Unreached.story = Ok doc)
    as [doc Hdoc] by (eexists; vm_compute; reflexivity).
  exists doc. split; [exact enumerates_remove_dups|].
  split; [reflexivity|]. split; [reflexivity|]. split; [exact Hfresh|].
  split; [exact Hdoc|].
  exact (document_nodes_reachable no_match remove_dups 3 Unreached.story []
           Unreached.A [Unreached.B] doc "B" enumerates_remove_dups
           eq_refl eq_refl Hfresh Hdoc).
Defined.

(** X5. For nodes as they are loaded, with the voice map set and a budget
    above the number of nodes, [export] returns a document exactly when
    every id that the choices, as rewritten, lead to from the first node
    is the id of a node. *)
Theorem export_returns_iff re_sub list_set fuel self voices first rest :
  enumerates list_set →
  StoryTree.voices self = Some voices →
  StoryTree.nodes self = first :: rest →
  Forall fresh (StoryTree.nodes self) →
  length (StoryTree.nodes self) < fuel →
  (∃ doc, StoryTree.export re_sub list_set fuel self = Ok doc)
  ↔ (∀ key,
       reachable (story_nodes_of re_sub voices (StoryTree.nodes self))
                 (StoryNode.id first) key →
       is_Some (story_nodes_of re_sub voices (StoryTree.nodes self) !! key)).
Proof.
  intros Henum Hvoices Hnodes Hfresh Hfuel.
  pose proof (rewritten_fresh re_sub voices _ Hfresh) as Hfresh'.
  split.
  - intros [doc Hexport] key Hreach.
    destruct (export_inv _ _ _ _ voices first rest doc Henum Hvoices Hnodes
                Hexport) as (produced & σ' & Hrun & _).
    apply tree_walk in Hrun.
    eapply walk_reaches_nodes; [|exact Hrun|exact Hreach].
    intros k. by apply fresh_not_placed.
  - intros Hall.
    rewrite (export_unfold _ _ _ _ voices first rest) by done.
    set (σ := story_nodes_of re_sub voices (StoryTree.nodes self)) in *.
    pose proof (tree_within_budget fuel (StoryNode.id first) σ) as Hbudget.
    destruct (tree fuel (StoryNode.id first) σ) as [[out σ']|e|] eqn:Hrun.
    + pose proof (tree_walk _ _ _ _ _ Hrun) as Hwalk.
      destruct (walk_head _ _ _ _ Hwalk) as [produced ->].
      unfold StoryTree.set_start. cbn [mbind result_bind].
      destruct (mapM_total
                  (Encode.encode
                     (alter (StoryNode.set_conditions (Some "conversation_start"))
                            (StoryNode.id first) σ'))
                  (node_ref (StoryNode.id first) :: produced)) as [dns ->].
      * intros [k|s t c p] Hin; simpl; [|eauto].
        destruct (walk_nodes_in_store _ _ _ _ k Hwalk Hin) as [n Hn].
        rewrite lookup_alter.
        case_decide; subst; rewrite Hn; simpl; eauto.
      * eauto.
    + exfalso. destruct (tree_raise _ _ _ _ Hrun) as (key & _ & Hnone & Hreach).
      destruct (Hall key Hreach) as [n Hn]. congruence.
    + exfalso. apply Hbudget.
      pose proof (unplaced_le_size σ).
      pose proof (store_of_nodes_size
                    (rewritten re_sub voices <$> StoryTree.nodes self)) as Hsize.
      rewrite length_fmap in Hsize. subst σ. unfold story_nodes_of in *. lia.
Qed.

Lemma export_returns_iff_witness :
  enumerates remove_dups
  ∧ StoryTree.voices Scenario.story = Some []
  ∧ StoryTree.nodes Scenario.story = Scenario.A :: [Scenario.B; Scenario.C]
  ∧ Forall fresh (StoryTree.nodes Scenario.story)
  ∧ length (StoryTree.nodes Scenario.story) < 4
  ∧ ((∃ doc, StoryTree.export no_match remove_dups 4 Scenario.story = Ok doc)
     ↔ (∀ key,
          reachable (story_nodes_of no_match [] (StoryTree.nodes Scenario.story))
                    (StoryNode.id Scenario.A) key →
          is_Some (story_nodes_of no_match []
                     (StoryTree.nodes Scenario.story) !! key))).
Proof.
  assert (Forall fresh (StoryTree.nodes Scenario.story)) as Hfresh
    by (repeat constructor).
  assert (length (StoryTree.nodes Scenario.story) < 4) as Hfuel by (simpl; lia).
  split; [exact enumerates_remove_dups|].
  split; [reflexivity|]. split; [reflexivity|]. split; [exact Hfresh|].
  split; [exact Hfuel|].
  exact (export_returns_iff no_match remove_dups 4 Scenario.story []
           Scenario.A [Scenario.B; Scenario.C] enumerates_remove_dups
           eq_refl eq_refl Hfresh Hfuel).
Defined.

(** X6. On nodes as they are loaded of which no choice leads to the root,
    the output of [tree] holds every node at most once, and the root is
    left without parent and without previous sibling. *)
Theorem tree_places_once_unless_root nodes fuel root out σ' :
  Forall fresh nodes →
  (∀ x, ¬ edge (StoryTree.store_of_nodes nodes) x root) →
  tree fuel root (StoryTree.store_of_nodes nodes) = Ok (out, σ') →
  NoDup (node_keys out)
  ∧ ∃ n, σ' !! root = Some n
         ∧ StoryNode.parent n = None
         ∧ StoryNode.previous_sibling n = None.
Proof.
  intros Hfresh Hnone Hrun. apply tree_walk in Hrun.
  pose proof (fresh_unlinked _ Hfresh) as Hun.
  destruct (proj1 walk_places_once_mutual _ _ _ _ Hrun)
    as (produced & -> & Hnodup & Hnew).
  destruct (walk_nodes_in_store _ _ _ _ root Hrun) as [n Hn]; [left|].
  assert (StoryNode.parent n = None) as Hparent.
  { destruct (StoryNode.parent n) as [p|] eqn:Hp; [|done]. exfalso.
    destruct (proj1 walk_links_mutual _ _ _ _ Hrun Hun root n Hn)
      as (p' & c & _ & _ & Hchoice & _); [congruence| |].
    - by apply fresh_not_placed.
    - apply (Hnone p'). by exists c. }
  split.
  - simpl. apply NoDup_cons. split; [|done].
    intros Hin. destruct (Hnew root Hin) as [_ (n' & Hn' & Hp')]. congruence.
  - exists n. split; [done|]. split; [done|].
    by apply (extends_unlinked _ _ (walk_extends _ _ _ _ Hrun) Hun root n).
Qed.

Lemma tree_places_once_unless_root_witness :
  ∃ out σ',
    Forall fresh Repeat.nodes
    ∧ (∀ x, ¬ edge (StoryTree.store_of_nodes Repeat.nodes) x "X")
    ∧ tree 3 "X" (StoryTree.store_of_nodes Repeat.nodes) = Ok (out, σ')
    ∧ NoDup (node_keys out)
    ∧ ∃ n, σ' !! "X" = Some n
           ∧ StoryNode.parent n = None
           ∧ StoryNode.previous_sibling n = None.
Proof.
  assert (Forall fresh Repeat.nodes) as Hfresh by (repeat constructor).
  assert (∀ x, ¬ edge (StoryTree.store_of_nodes Repeat.nodes) x "X") as Hnone.
  { intros x (label & n & Hn & Hin).
    apply store_of_nodes_lookup in Hn as [Hn _].
    unfold Repeat.nodes in Hn.
    repeat (apply elem_of_cons in Hn as [->|Hn];
            [vm_compute in Hin;
             repeat (apply elem_of_cons in Hin as [[=]|Hin]);
             by apply elem_of_nil in Hin|]).
    by apply elem_of_nil in Hn. }
  assert (∃ out σ', tree 3 "X" (StoryTree.store_of_nodes Repeat.nodes)
                    = Ok (out, σ')) as (out & σ' & Hrun)
    by (eexists _, _; vm_compute; reflexivity).
  exists out, σ'. split; [exact Hfresh|]. split; [exact Hnone|].
  split; [exact Hrun|].
  exact (tree_places_once_unless_root Repeat.nodes 3 "X" out σ'
           Hfresh Hnone Hrun).
Defined.

(** ** The dictionary of nodes *)

(** X7. Where several nodes of the list have the same id, the dictionary
    that [export] builds holds the last of them under that id (and none
    for an id that no node has). *)
Theorem store_of_nodes_last nodes key :
  StoryTree.store_of_nodes nodes !! key
  = last (filter (λ n, StoryNode.id n = key) nodes).
Proof.
  induction nodes as [|m nodes IH] using rev_ind; [done|].
  rewrite store_of_nodes_snoc, filter_app, lookup_insert.
  rewrite filter_cons, filter_nil. case_decide as Hid.
  - by rewrite last_snoc.
  - by rewrite app_nil_r.
Qed.

(** X8. [tree] changes nothing of the script: when it returns, the
    dictionary has the keys it had, every node has the id, the text and the
    choices it had, and a node that had a parent before the call is as it
    was. *)
Theorem tree_keeps_script fuel root (σ : store) out σ' key :
  tree fuel root σ = Ok (out, σ') →
  match σ !! key, σ' !! key with
  | Some n, Some n' =>
      StoryNode.id n' = StoryNode.id n
      ∧ StoryNode.text n' = StoryNode.text n
      ∧ StoryNode.children n' = StoryNode.children n
      ∧ (StoryNode.parent n ≠ None → n' = n)
  | None, None => True
  | _, _ => False
  end.
Proof.
  intros Hrun. apply tree_walk, walk_extends in Hrun. specialize (Hrun key).
  destruct Hrun as [n n' (? & ? & ? & ? & _)|]; done.
Qed.

Lemma tree_keeps_script_witness :
  ∃ out σ',
    tree 4 "A" (StoryTree.store_of_nodes Scenario.nodes) = Ok (out, σ')
    ∧ match StoryTree.store_of_nodes Scenario.nodes !! "B", σ' !! "B" with
      | Some n, Some n' =>
          StoryNode.id n' = StoryNode.id n
          ∧ StoryNode.text n' = StoryNode.text n
          ∧ StoryNode.children n' = StoryNode.children n
          ∧ (StoryNode.parent n ≠ None → n' = n)
      | None, None => True
      | _, _ => False
      end.
Proof.
  assert (∃ out σ', tree 4 "A" (StoryTree.store_of_nodes Scenario.nodes)
                    = Ok (out, σ')) as (out & σ' & Hrun)
    by (eexists _, _; vm_compute; reflexivity).
  exists out, σ'. split; [exact Hrun|].
  exact (tree_keeps_script 4 "A" (StoryTree.store_of_nodes Scenario.nodes)
           out σ' "B" Hrun).
Defined.

(** ** Sanitized labels *)

(** X9. The id made from a label has as many characters as the label and
    holds neither a space nor an apostrophe; it is the label itself
    exactly when the label holds neither. *)
Theorem safe_response_clean r :
  length (chars (safe_response r)) = length (chars r)
  ∧ (" "%char ∉ chars (safe_response r))
  ∧ ("'"%char ∉ chars (safe_response r))
  ∧ (safe_response r = r ↔ (" "%char ∉ chars r) ∧ ("'"%char ∉ chars r)).
Proof.
  rewrite chars_safe_response. split; [by rewrite length_fmap|].
  split; [|split].
  - intros (c & Hc & _)%list_elem_of_fmap.
    case_decide as Hcase; [done|]. apply Hcase. by left.
  - intros (c & Hc & _)%list_elem_of_fmap.
    case_decide as Hcase; [done|]. apply Hcase. by right.
  - split.
    + intros Heq. apply (f_equal chars) in Heq.
      rewrite chars_safe_response in Heq.
      induction (chars r) as [|c l IH]; [split; apply not_elem_of_nil|].
      rewrite fmap_cons in Heq. injection Heq as Hc Hl.
      destruct (IH Hl) as [Hsp Hap]. rewrite !not_elem_of_cons.
      case_decide as Hcase; [destruct Hcase; by subst|].
      split; (split; [|done]); intros <-; apply Hcase; [by left | by right].
    + intros [Hsp Hap]. apply chars_inj. rewrite chars_safe_response.
      induction (chars r) as [|c l IH]; [done|].
      rewrite not_elem_of_cons in Hsp, Hap.
      destruct Hsp as [Hsp1 Hsp2]. destruct Hap as [Hap1 Hap2].
      rewrite fmap_cons, IH by done.
      rewrite decide_False; [done|]. by intros [->| ->].
Qed.


(** ** Labels that are sanitized alike *)

Lemma dict_get_set d k v k' :
  dict_get (dict_set d k v) k' = if decide (k = k') then Some v else dict_get d k'.
Proof.
  induction d as [|[k0 v0] d IH]; simpl.
  - done.
  - destruct (decide (k0 = k)) as [->|Hne]; simpl.
    + by destruct (decide (k = k')).
    + rewrite IH. destruct (decide (k0 = k')) as [->|?]; [|done].
      by rewrite decide_False by done.
Qed.

Lemma dict_set_NoDup d k v :
  NoDup (dict_keys d) → NoDup (dict_keys (dict_set d k v)).
Proof.
  intros Hnodup. rewrite dict_set_keys. case_decide as Hin; [done|].
  apply NoDup_app. split; [done|]. split; [|apply NoDup_singleton].
  intros x Hx ->%list_elem_of_singleton. done.
Qed.

Lemma dict_rename_NoDup f d : NoDup (dict_keys (dict_rename f d [])).
Proof.
  induction d as [|[k v] d IH] using rev_ind; [constructor|].
  rewrite dict_rename_snoc. by apply dict_set_NoDup.
Qed.

Lemma dict_rename_get f d key :
  dict_get (dict_rename f d []) key
  = snd <$> last (filter (λ rc, f rc.1 = key) d).
Proof.
  induction d as [|[k v] d IH] using rev_ind; [done|].
  rewrite dict_rename_snoc, dict_get_set, filter_app, filter_cons, filter_nil.
  simpl. case_decide as Hk.
  - by rewrite last_snoc.
  - by rewrite app_nil_r.
Qed.

(** X10. In the mapping that intent extraction leaves in a node no key
    occurs twice, and what stands under a key is the target of the last
    choice of the node whose label is rewritten to that key: where two
    labels of a node are rewritten alike, the earlier choice is gone. *)
Theorem rewritten_mapping_last re_sub list_set self voices found nodes2 :
  enumerates list_set →
  StoryTree.voices self = Some voices →
  StoryTree.extract_intents re_sub list_set self = Ok (found, nodes2) →
  Forall2
    (λ n n2,
       NoDup (dict_keys (StoryNode.children n2))
       ∧ ∀ key, dict_get (StoryNode.children n2) key
                = snd <$> last (filter (λ rc, intent_ref rc.1 = key)
                                       (StoryNode.children n)))
    (StoryTree.nodes self) nodes2.
Proof.
  intros Henum Hvoices Hrun.
  rewrite (extract_intents_ok _ _ _ voices Henum Hvoices) in Hrun.
  injection Hrun as _ <-.
  apply Forall2_fmap_r, Forall_Forall2_diag, Forall_forall. intros n _.
  split.
  - apply (dict_rename_NoDup intent_ref (StoryNode.children n)).
  - intros key. apply (dict_rename_get intent_ref (StoryNode.children n)).
Qed.

Lemma rewritten_mapping_last_witness :
  ∃ found nodes2,
    enumerates remove_dups
    ∧ StoryTree.voices Collision.story = Some []
    ∧ StoryTree.extract_intents no_match remove_dups Collision.story
      = Ok (found, nodes2)
    ∧ Forall2
        (λ n n2,
           NoDup (dict_keys (StoryNode.children n2))
           ∧ ∀ key, dict_get (StoryNode.children n2) key
                    = snd <$> last (filter (λ rc, intent_ref rc.1 = key)
                                           (StoryNode.children n)))
        (StoryTree.nodes Collision.story) nodes2.
Proof.
  assert (∃ found nodes2,
            StoryTree.extract_intents no_match remove_dups Collision.story
            = Ok (found, nodes2)) as (found & nodes2 & Hrun)
    by (eexists _, _; vm_compute; reflexivity).
  exists found, nodes2. split; [exact enumerates_remove_dups|].
  split; [reflexivity|]. split; [exact Hrun|].
  exact (rewritten_mapping_last no_match remove_dups Collision.story []
           found nodes2 enumerates_remove_dups eq_refl Hrun).
Defined.

(** X11. Two different labels that are sanitized to the same id give two
    intents with that id, one with each label as its example; they are
    not merged. *)
Theorem colliding_labels_two_intents re_sub list_set self voices found nodes2
    label1 label2 :
  enumerates list_set →
  StoryTree.voices self = Some voices →
  StoryTree.extract_intents re_sub list_set self = Ok (found, nodes2) →
  label1 ∈ StoryTree.collect_responses (StoryTree.nodes self) →
  label2 ∈ StoryTree.collect_responses (StoryTree.nodes self) →
  label1 ∉ reserved → label2 ∉ reserved →
  label1 ≠ label2 →
  safe_response label1 = safe_response label2 →
  ∃ i1 i2,
    i1 ∈ found ∧ i2 ∈ found ∧ i1 ≠ i2
    ∧ Intent.intent i1 = Intent.intent i2
    ∧ Intent.examples_text i1 = [label1]
    ∧ Intent.examples_text i2 = [label2].
Proof.
  intros Henum Hvoices Hrun Hin1 Hin2 Hres1 Hres2 Hne Hsafe.
  rewrite (extract_intents_ok _ _ _ voices Henum Hvoices) in Hrun.
  injection Hrun as <- _.
  destruct (Henum (StoryTree.collect_responses (StoryTree.nodes self)))
    as [_ Hin].
  exists (intent_of label1), (intent_of label2).
  split; [|split; [|split; [|split; [|split]]]]; try done.
  - apply list_elem_of_fmap_2, list_elem_of_filter. split; [done | by apply Hin].
  - apply list_elem_of_fmap_2, list_elem_of_filter. split; [done | by apply Hin].
  - by intros ?%intent_of_inj.
Qed.

Lemma colliding_labels_two_intents_witness :
  ∃ found nodes2,
    enumerates remove_dups
    ∧ StoryTree.voices Collision.story = Some []
    ∧ StoryTree.extract_intents no_match remove_dups Collision.story
      = Ok (found, nodes2)
    ∧ "can't go" ∈ StoryTree.collect_responses (StoryTree.nodes Collision.story)
    ∧ "can t go" ∈ StoryTree.collect_responses (StoryTree.nodes Collision.story)
    ∧ ("can't go" ∉ reserved) ∧ ("can t go" ∉ reserved)
    ∧ "can't go" ≠ "can t go"
    ∧ safe_response "can't go" = safe_response "can t go"
    ∧ ∃ i1 i2,
        i1 ∈ found ∧ i2 ∈ found ∧ i1 ≠ i2
        ∧ Intent.intent i1 = Intent.intent i2
        ∧ Intent.examples_text i1 = ["can't go"]
        ∧ Intent.examples_text i2 = ["can t go"].
Proof.
  assert (∃ found nodes2,
            StoryTree.extract_intents no_match remove_dups Collision.story
            = Ok (found, nodes2)) as (found & nodes2 & Hrun)
    by (eexists _, _; vm_compute; reflexivity).
  assert ("can't go"
            ∈ StoryTree.collect_responses (StoryTree.nodes Collision.story))
    as Hin1 by by_compute.
  assert ("can t go"
            ∈ StoryTree.collect_responses (StoryTree.nodes Collision.story))
    as Hin2 by by_compute.
  assert ("can't go" ∉ reserved) as Hres1 by by_compute.
  assert ("can t go" ∉ reserved) as Hres2 by by_compute.
  assert ("can't go" ≠ "can t go") as Hne by by_compute.
  assert (safe_response "can't go" = safe_response "can t go") as Hsafe
    by reflexivity.
  exists found, nodes2. split; [exact enumerates_remove_dups|].
  split; [reflexivity|]. split; [exact Hrun|].
  split; [exact Hin1|]. split; [exact Hin2|].
  split; [exact Hres1|]. split; [exact Hres2|].
  split; [exact Hne|]. split; [exact Hsafe|].
  exact (colliding_labels_two_intents no_match remove_dups Collision.story []
           found nodes2 "can't go" "can t go" enumerates_remove_dups eq_refl
           Hrun Hin1 Hin2 Hres1 Hres2 Hne Hsafe).
Defined.


(** ** [load_from_csv] *)

Lemma half_pos n : 0 < n / 2 ↔ 2 ≤ n.
Proof.
  pose proof (Nat.div_small_iff n 2 ltac:(done)) as Hsmall.
  split; intros H.
  - destruct (decide (n < 2)) as [Hlt|?]; [|lia].
    apply Hsmall in Hlt. lia.
  - destruct (decide (n / 2 = 0)) as [Hzero|?]; [|lia].
    apply Hsmall in Hzero. lia.
Qed.

Lemma add_children_fold n pairs :
  Load.add_children n pairs
  = StoryNode.set_children
      (foldl (λ d rc, dict_set d rc.1 rc.2) (StoryNode.children n) pairs) n.
Proof.
  revert n. induction pairs as [|[r c] pairs IH]; intros n; simpl.
  - by destruct n.
  - unfold Load.add_children in *. simpl. rewrite IH. by destruct n.
Qed.

Lemma add_children_init id text responses children :
  Load.add_children (StoryNode.init id text [] []) (zip responses children)
  = StoryNode.init id text responses children.
Proof. by rewrite add_children_fold. Qed.

(** One pass of the loop, by the fields of the row. *)
Lemma load_row_fields behaviour line :
  Load.load_row behaviour line
  = match Load.fields line with
    | id :: text :: b =>
        let node :=
          StoryNode.init id text (take (length b / 2) b) (drop (length b / 2) b) in
        if decide (2 ≤ length b) then Load.Returns (node, Some b)
        else
          match behaviour with
          | None => Load.Raises Load.UnboundLocalError
          | Some b0 => Load.Returns (node, Some b0)
          end
    | _ => Load.Raises Load.IndexError
    end.
Proof.
  unfold Load.load_row.
  destruct (Load.fields line) as [|id [|text b]]; [done..|].
  cbn [length]. replace (S (S (length b)) - 2) with (length b) by lia.
  cbn zeta. destruct (decide (2 ≤ length b)) as [Hfull|Hleaf].
  - rewrite decide_True by (by apply half_pos). cbn [drop].
    by rewrite add_children_init.
  - rewrite decide_False by (by rewrite half_pos).
    destruct behaviour as [b0|]; [|done].
    assert (length b / 2 = 0) as -> by (apply Nat.div_small_iff; lia).
    done.
Qed.

Lemma row_node_func line n1 n2 : row_node line n1 → row_node line n2 → n1 = n2.
Proof.
  intros (id1 & text1 & b1 & Hf1 & ->) (id2 & text2 & b2 & Hf2 & ->).
  rewrite Hf1 in Hf2. by injection Hf2 as -> -> ->.
Qed.

Lemma load_row_returns behaviour line node behaviour' :
  Load.load_row behaviour line = Load.Returns (node, behaviour') →
  row_node line node ∧ is_Some behaviour' ∧ 2 ≤ length (Load.fields line).
Proof.
  rewrite load_row_fields. unfold row_node.
  destruct (Load.fields line) as [|id [|text b]]; [done..|]. cbn zeta.
  case_decide.
  - intros [= <- <-]. split; [by eexists _, _, _|]. split; [eauto | simpl; lia].
  - destruct behaviour as [b0|]; [|done].
    intros [= <- <-]. split; [by eexists _, _, _|]. split; [eauto | simpl; lia].
Qed.

Lemma load_row_bound b0 line :
  2 ≤ length (Load.fields line) →
  ∃ node b', Load.load_row (Some b0) line = Load.Returns (node, Some b').
Proof.
  rewrite load_row_fields.
  destruct (Load.fields line) as [|id [|text b]]; simpl; [lia..|].
  intros _. case_decide; eauto.
Qed.

Lemma load_rows_bound rows :
  ∀ b acc nodes,
    Load.load_rows rows (Some b) acc = Load.Returns nodes
    ↔ Forall (λ r, 2 ≤ length (Load.fields r)) rows
      ∧ ∃ nodes', Forall2 row_node rows nodes' ∧ nodes = acc ++ nodes'.
Proof.
  induction rows as [|line rows IH]; intros b acc nodes; simpl.
  - split.
    + intros [= <-]. split; [constructor|]. exists [].
      split; [constructor | by rewrite app_nil_r].
    + intros (_ & nodes' & Hall & ->). inversion Hall. by rewrite app_nil_r.
  - split.
    + destruct (Load.load_row (Some b) line) as [[node b']|e] eqn:Hrow; [|done].
      destruct (load_row_returns _ _ _ _ Hrow) as (Hnode & [b'' ->] & Hlen).
      intros (Hall & nodes' & Hnodes & ->)%IH.
      split; [by constructor|]. exists (node :: nodes').
      split; [by constructor | by rewrite <- app_assoc].
    + intros (Hall & nodes' & Hnodes & ->).
      inversion Hall as [|? ? Hlen Hall']; subst.
      inversion Hnodes as [|? node ? nodes'' Hnode Hnodes']; subst.
      destruct (load_row_bound b line Hlen) as (node' & b' & Hrow).
      rewrite Hrow.
      destruct (load_row_returns _ _ _ _ Hrow) as (Hnode' & _ & _).
      rewrite (row_node_func _ _ _ Hnode' Hnode).
      apply IH. split; [done|]. exists nodes''.
      split; [done | by rewrite <- app_assoc].
Qed.

Lemma load_rows_nodes rows :
  ∀ b acc nodes,
    Load.load_rows rows b acc = Load.Returns nodes →
    ∃ nodes', Forall2 row_node rows nodes' ∧ nodes = acc ++ nodes'.
Proof.
  induction rows as [|line rows IH]; intros b acc nodes; simpl.
  - intros [= <-]. exists []. split; [constructor | by rewrite app_nil_r].
  - destruct (Load.load_row b line) as [[node b']|e] eqn:Hrow; [|done].
    destruct (load_row_returns _ _ _ _ Hrow) as (Hnode & _ & _).
    intros (nodes' & Hnodes & ->)%IH. exists (node :: nodes').
    split; [by constructor | by rewrite <- app_assoc].
Qed.

(** X12. [load_from_csv] returns for the rows of a file exactly when each
    row keeps at least two fields once the empty ones are dropped, and the
    first row at least four; then it returns, row by row, the node with
    the first field as id, the second as text, and of the fields that
    follow the first half as labels and the next half as targets. *)
Theorem load_from_csv_returns rows nodes :
  Load.load_from_csv rows = Load.Returns nodes
  ↔ Forall (λ r, 2 ≤ length (Load.fields r)) rows
    ∧ (∀ r rest, rows = r :: rest → 4 ≤ length (Load.fields r))
    ∧ Forall2 row_node rows nodes.
Proof.
  unfold Load.load_from_csv. destruct rows as [|line rows]; simpl.
  - split.
    + intros [= <-]. split; [constructor|]. split; [done | constructor].
    + intros (_ & _ & Hall). by inversion Hall.
  - rewrite load_row_fields.
    destruct (Load.fields line) as [|id [|text b]] eqn:Hfields.
    + split; [done|]. intros (Hall & _).
      inversion Hall as [|? ? Hlen _]; subst. rewrite Hfields in Hlen.
      simpl in Hlen. lia.
    + split; [done|]. intros (Hall & _).
      inversion Hall as [|? ? Hlen _]; subst. rewrite Hfields in Hlen.
      simpl in Hlen. lia.
    + cbn zeta. case_decide as Hfull.
      * rewrite load_rows_bound. split.
        -- intros (Hall & nodes' & Hnodes & ->).
           split; [constructor; [rewrite Hfields; simpl; lia | done]|].
           split; [intros r rest [= <- <-]; rewrite Hfields; simpl; lia|].
           constructor; [by eexists _, _, _ | done].
        -- intros (Hall & _ & Hnodes).
           inversion Hall; subst.
           inversion Hnodes as [|? node ? nodes' Hnode Hnodes']; subst.
           split; [done|]. exists nodes'. split; [done|]. cbn [app]. f_equal.
           apply (row_node_func line); [done | by eexists _, _, _].
      * split; [done|]. intros (_ & Hfirst & _).
        specialize (Hfirst line rows eq_refl). rewrite Hfields in Hfirst.
        simpl in Hfirst. lia.
Qed.

(** X13. When the first row has two or three fields that are not empty
    (a node without choices), [load_from_csv] raises [UnboundLocalError],
    whatever rows follow: [behaviour] is read before it was ever
    assigned. *)
Theorem load_from_csv_first_row_without_choices line rows :
  2 ≤ length (Load.fields line) < 4 →
  Load.load_from_csv (line :: rows) = Load.Raises Load.UnboundLocalError.
Proof.
  intros [Hlow Hhigh]. unfold Load.load_from_csv. simpl.
  rewrite load_row_fields.
  destruct (Load.fields line) as [|id [|text b]]; simpl in *; [lia..|].
  rewrite decide_False by lia. done.
Qed.

Lemma load_from_csv_first_row_without_choices_witness :
  2 ≤ length (Load.fields ["C"; "Right room"; ""]) < 4
  ∧ Load.load_from_csv (["C"; "Right room"; ""] :: [["A"; "Hi"; "go"; "C"]])
    = Load.Raises Load.UnboundLocalError.
Proof.
  assert (2 ≤ length (Load.fields ["C"; "Right room"; ""]) < 4) as Hlen
    by (vm_compute; lia).
  split; [exact Hlen|].
  exact (load_from_csv_first_row_without_choices ["C"; "Right room"; ""]
           [["A"; "Hi"; "go"; "C"]] Hlen).
Defined.

Lemma load_rows_app pre rest :
  ∀ b acc nodes,
    Load.load_rows pre b acc = Load.Returns nodes →
    ∃ b', Load.load_rows (pre ++ rest) b acc = Load.load_rows rest b' nodes.
Proof.
  induction pre as [|line pre IH]; intros b acc nodes; simpl.
  - intros [= <-]. eauto.
  - destruct (Load.load_row b line) as [[node b']|e]; [|done]. apply IH.
Qed.

(** X14. When the rows up to some row load and that row keeps fewer than
    two fields once the empty ones are dropped (an empty line, say),
    [load_from_csv] raises [IndexError]. *)
Theorem load_from_csv_short_row pre line rest nodes :
  Load.load_from_csv pre = Load.Returns nodes →
  length (Load.fields line) < 2 →
  Load.load_from_csv (pre ++ line :: rest) = Load.Raises Load.IndexError.
Proof.
  intros Hpre Hshort. unfold Load.load_from_csv in *.
  destruct (load_rows_app pre (line :: rest) _ _ _ Hpre) as [b' ->].
  simpl. rewrite load_row_fields.
  destruct (Load.fields line) as [|id [|text b]]; simpl in *; [done..|lia].
Qed.

Lemma load_from_csv_short_row_witness :
  Load.load_from_csv [["A"; "Hi"; "go"; "A"]]
  = Load.Returns [StoryNode.init "A" "Hi" ["go"] ["A"]]
  ∧ length (Load.fields [""; "B"]) < 2
  ∧ Load.load_from_csv ([["A"; "Hi"; "go"; "A"]] ++ [""; "B"] :: [])
    = Load.Raises Load.IndexError.
Proof.
  assert (Load.load_from_csv [["A"; "Hi"; "go"; "A"]]
          = Load.Returns [StoryNode.init "A" "Hi" ["go"] ["A"]]) as Hpre
    by (vm_compute; reflexivity).
  assert (length (Load.fields [""; "B"]) < 2) as Hshort by (vm_compute; lia).
  split; [exact Hpre|]. split; [exact Hshort|].
  exact (load_from_csv_short_row [["A"; "Hi"; "go"; "A"]] [""; "B"] []
           [StoryNode.init "A" "Hi" ["go"] ["A"]] Hpre Hshort).
Defined.


Lemma load_rows_state rows :
  ∀ b1 b2 acc,
    Load.load_rows rows (Some b1) acc = Load.load_rows rows (Some b2) acc.
Proof.
  induction rows as [|line rows IH]; intros b1 b2 acc; simpl; [done|].
  rewrite !load_row_fields.
  destruct (Load.fields line) as [|id [|text b]]; [done..|]. cbn zeta.
  case_decide; [done|]. apply IH.
Qed.

Lemma load_rows_prefix pre rows1 rows2 :
  (∀ b acc, Load.load_rows rows1 b acc = Load.load_rows rows2 b acc) →
  ∀ b acc, Load.load_rows (pre ++ rows1) b acc
           = Load.load_rows (pre ++ rows2) b acc.
Proof.
  intros Hsame. induction pre as [|line pre IH]; intros b acc; simpl; [done|].
  destruct (Load.load_row b line) as [[node b']|e]; [apply IH | done].
Qed.

Lemma zip_app_extra {A B} (l1 : list A) (l2 l3 : list B) :
  length l1 = length l2 → zip l1 (l2 ++ l3) = zip l1 l2.
Proof.
  revert l2. induction l1 as [|a l1 IH]; intros [|b l2]; simpl; try done.
  intros [= Hlen]. f_equal. by apply IH.
Qed.

Lemma half_even n : Nat.Even n → (n + 1) / 2 = n / 2 ∧ n = 2 * (n / 2).
Proof.
  intros [k ->]. rewrite (Nat.mul_comm 2 k), Nat.div_mul by done.
  split; [|lia].
  rewrite Nat.div_add_l by done. by rewrite (Nat.div_small 1 2) by lia.
Qed.

(** X15. A field left over after the labels and targets of a row have
    been paired makes no difference: with an even number of fields that
    are not empty in a row, [load_from_csv] does the same whether or not
    one more field follows in that row. *)
Theorem load_from_csv_unpaired_field pre line extra rest :
  Nat.Even (length (Load.fields line)) →
  Load.load_from_csv (pre ++ (line ++ [extra]) :: rest)
  = Load.load_from_csv (pre ++ line :: rest).
Proof.
  intros Heven. unfold Load.load_from_csv. apply load_rows_prefix.
  intros b0 acc. simpl. rewrite !load_row_fields.
  unfold Load.fields in *. rewrite filter_app, filter_cons, filter_nil.
  destruct (decide (extra ≠ "")) as [Hextra|_]; [|by rewrite app_nil_r].
  destruct (filter (λ field, field ≠ "") line) as [|id [|text b]] eqn:Hfields.
  - done.
  - destruct Heven as [k Hk]. simpl in Hk. lia.
  - assert (Nat.Even (length b)) as Hb.
    { destruct Heven as [k Hk]. simpl in Hk. exists (k - 1). lia. }
    destruct (half_even _ Hb) as [Hhalf Hlen].
    cbn [app]. cbn zeta. rewrite length_app. cbn [length]. rewrite Hhalf.
    assert (StoryNode.init id text (take (length b / 2) (b ++ [extra]))
              (drop (length b / 2) (b ++ [extra]))
            = StoryNode.init id text (take (length b / 2) b)
                (drop (length b / 2) b)) as ->.
    { unfold StoryNode.init. f_equal.
      rewrite take_app_le, drop_app_le by lia.
      rewrite zip_app_extra; [done|].
      rewrite length_take, length_drop. lia. }
    destruct (decide (2 ≤ length b)) as [Hfull|Hleaf].
    + rewrite decide_True by lia. apply load_rows_state.
    + rewrite decide_False by lia. done.
Qed.

Lemma load_from_csv_unpaired_field_witness :
  Nat.Even (length (Load.fields ["A"; "Hi"; "go"; "B"]))
  ∧ Load.load_from_csv
      ([] ++ (["A"; "Hi"; "go"; "B"] ++ ["stray"]) :: [["B"; "End"]])
    = Load.load_from_csv ([] ++ ["A"; "Hi"; "go"; "B"] :: [["B"; "End"]]).
Proof.
  assert (Nat.Even (length (Load.fields ["A"; "Hi"; "go"; "B"]))) as Heven
    by (exists 2; reflexivity).
  split; [exact Heven|].
  exact (load_from_csv_unpaired_field [] ["A"; "Hi"; "go"; "B"] "stray"
           [["B"; "End"]] Heven).
Defined.

(** ** [load_voice_file] *)

Lemma split_cons sep s : ∃ piece pieces, Load.split sep s = piece :: pieces.
Proof.
  induction s as [|c s (piece & pieces & IH)]; simpl; [eauto|].
  case_decide; [eauto|]. rewrite IH. eauto.
Qed.

Lemma split_length s : length (Load.split "," s) = S (commas s).
Proof.
  unfold commas. induction s as [|c s IH]; simpl; [done|].
  rewrite filter_cons. destruct (decide (c = ","%char)) as [->|Hne].
  - simpl. by rewrite IH.
  - destruct (split_cons "," s) as (piece & pieces & Hsplit).
    rewrite Hsplit in IH |- *. done.
Qed.

Lemma split_no_sep s : commas s = 0 → Load.split "," s = [s].
Proof.
  unfold commas. induction s as [|c s IH]; simpl; [done|].
  rewrite filter_cons. destruct (decide (c = ","%char)) as [->|Hne]; [done|].
  intros Hzero. by rewrite IH.
Qed.

Lemma split_app name rest :
  commas name = 0 →
  Load.split "," (name +:+ "," +:+ rest) = name :: Load.split "," rest.
Proof.
  unfold commas. induction name as [|c name IH]; simpl; [done|].
  rewrite filter_cons. destruct (decide (c = ","%char)) as [->|Hne]; [done|].
  intros Hzero. by rewrite IH.
Qed.

Lemma drop_last_snoc s c : Load.drop_last (s +:+ String c "") = s.
Proof.
  induction s as [|c' s IH]; [done|].
  change (String c' s +:+ String c "") with (String c' (s +:+ String c "")).
  cbn [Load.drop_last]. rewrite IH.
  by destruct s.
Qed.

Lemma app_assoc_string s1 s2 s3 : (s1 +:+ s2) +:+ s3 = s1 +:+ s2 +:+ s3.
Proof.
  induction s1 as [|c s1 IH]; [done|].
  change (String c ((s1 +:+ s2) +:+ s3) = String c (s1 +:+ s2 +:+ s3)).
  by rewrite IH.
Qed.

Lemma load_voice_lines_entries entries :
  Forall (λ e, commas e.1.1 = 0 ∧ commas e.1.2 = 0) entries →
  ∀ voices,
    Load.load_voice_lines (voice_line <$> entries) voices
    = Load.Returns (foldl (λ d e, dict_set d e.1.1 e.1.2) voices entries).
Proof.
  induction 1 as [|[[name voice] c] entries [Hname Hvoice] _ IH];
    intros voices; [done|].
  rewrite fmap_cons. cbn [Load.load_voice_lines foldl].
  unfold voice_line at 1. simpl in *.
  replace (name +:+ "," +:+ voice +:+ String c "")
    with ((name +:+ "," +:+ voice) +:+ String c "")
    by (by rewrite !app_assoc_string).
  rewrite drop_last_snoc, split_app, split_no_sep by done. apply IH.
Qed.

(** X16. [load_voice_file] reads back what was written as one line per
    entry, name, comma, voice and one more character: for names and
    voices without a comma it returns the mapping with these entries, a
    later entry for a name replacing an earlier one.  The last character
    of a line is dropped whatever it is, a line feed or not. *)
Theorem load_voice_file_entries entries :
  Forall (λ e, commas e.1.1 = 0 ∧ commas e.1.2 = 0) entries →
  Load.load_voice_file (voice_line <$> entries)
  = Load.Returns (foldl (λ d e, dict_set d e.1.1 e.1.2) [] entries).
Proof. intros Hall. by apply load_voice_lines_entries. Qed.

Lemma load_voice_file_entries_witness :
  Forall (λ e, commas e.1.1 = 0 ∧ commas e.1.2 = 0)
         [("Ann", "en-GB_Kate", "010"%char); ("Bob", "en-US_Mike", "e"%char)]
  ∧ Load.load_voice_file
      (voice_line
         <$> [("Ann", "en-GB_Kate", "010"%char); ("Bob", "en-US_Mike", "e"%char)])
    = Load.Returns
        (foldl (λ d e, dict_set d e.1.1 e.1.2) []
           [("Ann", "en-GB_Kate", "010"%char); ("Bob", "en-US_Mike", "e"%char)]).
Proof.
  assert (Forall (λ e, commas e.1.1 = 0 ∧ commas e.1.2 = 0)
            [("Ann", "en-GB_Kate", "010"%char); ("Bob", "en-US_Mike", "e"%char)])
    as Hall by (repeat constructor).
  split; [exact Hall|].
  exact (load_voice_file_entries
           [("Ann", "en-GB_Kate", "010"%char); ("Bob", "en-US_Mike", "e"%char)]
           Hall).
Defined.

Lemma load_voice_lines_raises lines :
  ∀ voices,
    (∃ found, Load.load_voice_lines lines voices = Load.Returns found)
    ∨ Load.load_voice_lines lines voices = Load.Raises Load.ValueError.
Proof.
  induction lines as [|line lines IH]; intros voices; simpl; [eauto|].
  destruct (Load.split "," (Load.drop_last line)) as [|n [|v [|? ?]]]; eauto.
Qed.

Lemma load_voice_lines_returns lines :
  ∀ voices,
    (∃ found, Load.load_voice_lines lines voices = Load.Returns found)
    ↔ Forall (λ line, commas (Load.drop_last line) = 1) lines.
Proof.
  induction lines as [|line lines IH]; intros voices; simpl.
  - split; [constructor | eauto].
  - pose proof (split_length (Load.drop_last line)) as Hlen.
    destruct (Load.split "," (Load.drop_last line)) as [|n [|v [|? ?]]];
      simpl in Hlen.
    + lia.
    + split; [by intros [? ?]|]. intros Hall. inversion Hall; subst. lia.
    + rewrite IH. split.
      * intros Hall. constructor; [lia | done].
      * intros Hall. by inversion Hall.
    + split; [by intros [? ?]|]. intros Hall. inversion Hall; subst. lia.
Qed.

(** X17. [load_voice_file] returns a mapping exactly when every line,
    its last character left out, holds one comma and no more; otherwise
    it raises [ValueError]: the outcome is a mapping if all lines are of
    that kind, and the exception [ValueError] if one of them is not. *)
Theorem load_voice_file_returns lines :
  ((∃ voices, Load.load_voice_file lines = Load.Returns voices)
   ↔ Forall (λ line, commas (Load.drop_last line) = 1) lines)
  ∧ match Load.load_voice_file lines with
    | Load.Returns _ => Forall (λ line, commas (Load.drop_last line) = 1) lines
    | Load.Raises e =>
        e = Load.ValueError
        ∧ ¬ Forall (λ line, commas (Load.drop_last line) = 1) lines
    end.
Proof.
  pose proof (load_voice_lines_returns lines []) as Hiff.
  split; [exact Hiff|]. unfold Load.load_voice_file in *.
  destruct (load_voice_lines_raises lines []) as [[found Hfound]|Hraise].
  - rewrite Hfound. apply Hiff. eauto.
  - rewrite Hraise. split; [done|]. intros Hall. apply Hiff in Hall as [found Hfound].
    congruence.
Qed.


(** ** [load_from_console] *)

Lemma console_loop_unfold node response inputs :
  Load.console_loop node response inputs
  = if decide (response = "") then Load.Returns (node, inputs)
    else
      match inputs with
      | child :: response' :: inputs' =>
          Load.console_loop
            (StoryNode.set_children
               (dict_set (StoryNode.children node) response child) node)
            response' inputs'
      | _ => Load.Raises Load.EOFError
      end.
Proof. by destruct inputs. Qed.

Lemma console_loop_typed pairs rest :
  Forall (λ rc, rc.1 ≠ "") pairs →
  ∀ node,
    ∃ response inputs,
      typed pairs ++ "" :: rest = response :: inputs
      ∧ Load.console_loop node response inputs
        = Load.Returns (Load.add_children node pairs, rest).
Proof.
  induction 1 as [|[r c] pairs Hr _ IH]; intros node.
  - exists "", rest. split; [done|]. by rewrite console_loop_unfold.
  - destruct (IH (StoryNode.set_children
                    (dict_set (StoryNode.children node) r c) node))
      as (response & inputs & Heq & Hloop).
    exists r, (c :: response :: inputs). split.
    + unfold typed in *. rewrite fmap_cons. simpl. by rewrite <- Heq.
    + rewrite console_loop_unfold, decide_False by done. exact Hloop.
Qed.

(** X18. [load_from_console], given a non-empty id, a text, then label
    and target of each choice in turn (no label empty) and an empty line,
    returns the node that [StoryNode] would build from the id, the text,
    the labels and the targets, and reads no further line; given an empty
    id it returns [None] and reads no further line. *)
Theorem load_from_console_typed id text pairs rest :
  id ≠ "" →
  Forall (λ rc, rc.1 ≠ "") pairs →
  Load.load_from_console (id :: text :: typed pairs ++ "" :: rest)
  = Load.Returns (Some (StoryNode.init id text pairs.*1 pairs.*2), rest)
  ∧ Load.load_from_console ("" :: rest) = Load.Returns (None, rest).
Proof.
  intros Hid Hpairs. split; [|done].
  unfold Load.load_from_console. rewrite decide_False by done.
  destruct (console_loop_typed pairs rest Hpairs (StoryNode.init id text [] []))
    as (response & inputs & -> & ->).
  rewrite <- (add_children_init id text pairs.*1 pairs.*2).
  by rewrite zip_fst_snd.
Qed.

Lemma load_from_console_typed_witness :
  "A" ≠ ""
  ∧ Forall (λ rc : string * string, rc.1 ≠ "") [("go", "B"); ("stay", "C")]
  ∧ Load.load_from_console
      ("A" :: "Hi" :: typed [("go", "B"); ("stay", "C")] ++ "" :: ["next"])
    = Load.Returns
        (Some (StoryNode.init "A" "Hi" [("go", "B"); ("stay", "C")].*1
                 [("go", "B"); ("stay", "C")].*2), ["next"])
  ∧ Load.load_from_console ("" :: ["next"]) = Load.Returns (None, ["next"]).
Proof.
  assert ("A" ≠ "") as Hid by done.
  assert (Forall (λ rc : string * string, rc.1 ≠ "") [("go", "B"); ("stay", "C")])
    as Hpairs by (repeat constructor; done).
  split; [exact Hid|]. split; [exact Hpairs|].
  exact (load_from_console_typed "A" "Hi" [("go", "B"); ("stay", "C")] ["next"]
           Hid Hpairs).
Defined.


(** ** From the loader to the tree *)

Lemma init_fresh id text responses children :
  fresh (StoryNode.init id text responses children).
Proof. done. Qed.

Lemma init_NoDup id text responses children :
  NoDup (dict_keys (StoryNode.children (StoryNode.init id text responses children))).
Proof.
  simpl. generalize (zip responses children). intros pairs.
  induction pairs as [|[r c] pairs IH] using rev_ind; [constructor|].
  rewrite foldl_app. simpl. by apply dict_set_NoDup.
Qed.

(** X19. The nodes that [load_from_csv] returns are as [tree] expects
    them: none has a parent, a previous sibling or a condition, the ids
    and texts are not empty, and no label occurs twice in the choices of a
    node. *)
Theorem load_from_csv_fresh rows nodes :
  Load.load_from_csv rows = Load.Returns nodes →
  Forall (λ n, fresh n
               ∧ StoryNode.id n ≠ "" ∧ StoryNode.text n ≠ ""
               ∧ NoDup (dict_keys (StoryNode.children n))) nodes.
Proof.
  intros (nodes' & Hall & ->)%load_rows_nodes. simpl.
  induction Hall as [|line n rows nodes (id & text & b & Hfields & ->) _ IH];
    constructor; [|done].
  split; [apply init_fresh|]. split; [|split; [|apply init_NoDup]].
  - assert (id ∈ Load.fields line) as Hin by (rewrite Hfields; left).
    by apply list_elem_of_filter in Hin as [? _].
  - assert (text ∈ Load.fields line) as Hin by (rewrite Hfields; right; left).
    by apply list_elem_of_filter in Hin as [? _].
Qed.

Lemma load_from_csv_fresh_witness :
  Load.load_from_csv [["A"; "Hi"; "go"; "back"; "B"; "A"]; ["B"; "End"]]
  = Load.Returns [StoryNode.init "A" "Hi" ["go"; "back"] ["B"; "A"];
                  StoryNode.init "B" "End" [] []]
  ∧ Forall (λ n, fresh n
                 ∧ StoryNode.id n ≠ "" ∧ StoryNode.text n ≠ ""
                 ∧ NoDup (dict_keys (StoryNode.children n)))
           [StoryNode.init "A" "Hi" ["go"; "back"] ["B"; "A"];
            StoryNode.init "B" "End" [] []].
Proof.
  assert (Load.load_from_csv
            [["A"; "Hi"; "go"; "back"; "B"; "A"]; ["B"; "End"]]
          = Load.Returns [StoryNode.init "A" "Hi" ["go"; "back"] ["B"; "A"];
                          StoryNode.init "B" "End" [] []]) as Hload
    by (vm_compute; reflexivity).
  split; [exact Hload|].
  exact (load_from_csv_fresh _ _ Hload).
Defined.
